(** * Borealis [Application]: view stack, focus, input dispatch, frame loop

    A shallow embedding of [library/lib/application.cpp].

    The static members of [Application] become the fields of one record,
    [App], which every operation threads explicitly.  Views are heap objects
    in the source; here a [View] value carries its identity and its chain of
    parent links (nothing in this file re-parents a view), while the fields a
    view mutates during its life (forced translucency, hidden flag, action
    list) live in a store indexed by the view's identity.  Calls into code
    this file does not own (view hooks, drawing) are recorded, in order, in
    the [trace] field; calls to the logger are left out. *)

From Stdlib Require Import ZArith List Bool Lia Arith PeanoNat.
Import ListNotations.

(** ** Data model *)

Inductive FocusDirection := UP | DOWN | LEFT | RIGHT.

(** [ViewAnimation] is declared in a header; the code only ever compares an
    animation with [FADE], so the other enumerators are kept as a tag. *)
Inductive ViewAnimation := FADE | OtherAnimation (tag : nat).

Definition isFade (animation : ViewAnimation) : bool :=
  match animation with FADE => true | OtherAnimation _ => false end.

(** [Key] values are the platform's button masks ([static_cast<Key>(button)]). *)
Definition Key := Z.

(** A view: identity, the user data its parent attached to it, its parent
    link, and whether its class reports itself as translucent. *)
#[local] Unset Elimination Schemes.
Inductive View : Type := mkView {
  vid : nat;
  classTranslucent : bool;
  getParentUserData : nat;
  getParent : option View
}.
#[local] Set Elimination Schemes.

Definition hasParent (v : View) : bool :=
  match getParent v with Some _ => true | None => false end.

(** The listeners that can sit in an action: the two lambdas [pushView]
    registers, and listeners supplied by application code (by number). *)
Inductive ActionListener := QuitListener | ToggleFpsListener | UserListener (n : nat).

Record Action := mkAction {
  key : Key;
  available : bool;
  actionListener : ActionListener
}.

Record ViewFields := mkViewFields {
  forceTranslucent : bool;
  hidden : bool;
  actions : list Action
}.

(** The closures handed to [View::show] and [View::hide], one constructor per
    lambda expression of the source; a caller's [std::function] is named by a
    number. *)
Inductive Callback :=
| UnblockInputs
| PushHideDone (animation : ViewAnimation) (wait : bool)
| PopHideDone (last : View) (animation : ViewAnimation) (wait : bool) (cb : nat)
| UserCallback (cb : nat).

Inductive AnimKind := ShowAnim | HideAnim.

Record Animation := mkAnimation {
  anim_kind : AnimKind;
  anim_view : View;
  anim_cb : Callback;
  anim_animation : ViewAnimation
}.

Inductive Event :=
| EvWillAppear (v : nat) (resetState : bool)
| EvWillDisappear (v : nat) (resetState : bool)
| EvShow (v : nat)
| EvHide (v : nat)
| EvDelete (v : nat)
| EvSetBoundaries (v : nat)
| EvInvalidate (v : nat)
| EvAlphaZero (v : nat)
| EvFocusLost (v : nat)
| EvFocusGained (v : nat)
| EvFocusChange (v : option nat)
| EvShakeHighlight (v : nat) (direction : FocusDirection)
| EvFrame (v : nat)
| EvFramerateCounterFrame
| EvNotificationsFrame.

(** The statics of [Application] that the operations below read or write.
    [framerateCounter] tells whether the counter object exists.  The counter
    [blockInputsTokens] is declared in a header; it is kept as an integer and
    the guard of [unblockInputs] is what keeps it from going below zero.
    [fields] is the store of the views' own fields, [pending] the animations
    the animation engine is running, oldest first, and [trace] the calls made
    so far into code outside this file. *)
Record App := mkApp {
  viewStack : list View;
  focusStack : list (option View);
  currentFocus : option View;
  repetitionOldFocus : option View;
  blockInputsTokens : Z;
  framerateCounter : bool;
  fields : list (nat * ViewFields);
  pending : list Animation;
  trace : list Event
}.

Definition set_viewStack (x : list View) (s : App) : App :=
  mkApp x (focusStack s) (currentFocus s) (repetitionOldFocus s)
        (blockInputsTokens s) (framerateCounter s) (fields s) (pending s) (trace s).

Definition set_focusStack (x : list (option View)) (s : App) : App :=
  mkApp (viewStack s) x (currentFocus s) (repetitionOldFocus s)
        (blockInputsTokens s) (framerateCounter s) (fields s) (pending s) (trace s).

Definition set_currentFocus (x : option View) (s : App) : App :=
  mkApp (viewStack s) (focusStack s) x (repetitionOldFocus s)
        (blockInputsTokens s) (framerateCounter s) (fields s) (pending s) (trace s).

Definition set_repetitionOldFocus (x : option View) (s : App) : App :=
  mkApp (viewStack s) (focusStack s) (currentFocus s) x
        (blockInputsTokens s) (framerateCounter s) (fields s) (pending s) (trace s).

Definition set_blockInputsTokens (x : Z) (s : App) : App :=
  mkApp (viewStack s) (focusStack s) (currentFocus s) (repetitionOldFocus s)
        x (framerateCounter s) (fields s) (pending s) (trace s).

Definition set_framerateCounter (x : bool) (s : App) : App :=
  mkApp (viewStack s) (focusStack s) (currentFocus s) (repetitionOldFocus s)
        (blockInputsTokens s) x (fields s) (pending s) (trace s).

Definition set_fields (x : list (nat * ViewFields)) (s : App) : App :=
  mkApp (viewStack s) (focusStack s) (currentFocus s) (repetitionOldFocus s)
        (blockInputsTokens s) (framerateCounter s) x (pending s) (trace s).

Definition set_pending (x : list Animation) (s : App) : App :=
  mkApp (viewStack s) (focusStack s) (currentFocus s) (repetitionOldFocus s)
        (blockInputsTokens s) (framerateCounter s) (fields s) x (trace s).

Definition set_trace (x : list Event) (s : App) : App :=
  mkApp (viewStack s) (focusStack s) (currentFocus s) (repetitionOldFocus s)
        (blockInputsTokens s) (framerateCounter s) (fields s) (pending s) x.

(** An external call, appended to the trace. *)
Definition emit (e : Event) (s : App) : App := set_trace (trace s ++ [e]) s.

(** ** Small helpers on vectors and pointers *)

(** [v[v.size() - 1]]; [None] when the vector is empty (out of range). *)
Definition back {A : Type} (l : list A) : option A :=
  nth_error l (length l - 1).

(** Pointer comparison of two (possibly null) views. *)
Definition samePointer (a b : option View) : bool :=
  match a, b with
  | None, None => true
  | Some x, Some y => Nat.eqb (vid x) (vid y)
  | _, _ => false
  end.

(** The store of the views' fields: the fields of a view that was never
    written are the ones its constructor sets. *)
Definition freshFields : ViewFields := mkViewFields false false [].

Fixpoint readFields (store : list (nat * ViewFields)) (v : nat) : ViewFields :=
  match store with
  | [] => freshFields
  | (w, o) :: rest => if Nat.eqb w v then o else readFields rest v
  end.

Fixpoint writeFields (v : nat) (o : ViewFields) (store : list (nat * ViewFields))
    : list (nat * ViewFields) :=
  match store with
  | [] => [(v, o)]
  | (w, o') :: rest =>
      if Nat.eqb w v then (v, o) :: rest else (w, o') :: writeFields v o rest
  end.

Definition fieldsOf (s : App) (v : View) : ViewFields := readFields (fields s) (vid v).

Definition updateFields (v : nat) (f : ViewFields -> ViewFields) (s : App) : App :=
  set_fields (writeFields v (f (readFields (fields s) v)) (fields s)) s.

Definition setForceTranslucent (v : View) (b : bool) (s : App) : App :=
  updateFields (vid v) (fun o => mkViewFields b (hidden o) (actions o)) s.

Definition setHidden (v : View) (b : bool) (s : App) : App :=
  updateFields (vid v) (fun o => mkViewFields (forceTranslucent o) b (actions o)) s.

Definition isHidden (s : App) (v : View) : bool := hidden (fieldsOf s v).

Definition getActions (s : App) (v : View) : list Action := actions (fieldsOf s v).

(** Modelled from the spec: [View::isTranslucent] is not in this file.  A view
    is translucent when its class says so or while the transient
    [forceTranslucent] override set by a transition is on. *)
Definition isTranslucent (s : App) (v : View) : bool :=
  forceTranslucent (fieldsOf s v) || classTranslucent v.

(** Modelled from the spec: [View::registerAction] is not in this file.  The
    action list is an ordered sequence and a registration adds an available
    action at its end. *)
Definition registerAction (v : View) (k : Key) (l : ActionListener) (s : App) : App :=
  updateFields (vid v)
    (fun o => mkViewFields (forceTranslucent o) (hidden o) (actions o ++ [mkAction k true l])) s.

(** Modelled from the spec: [View::show] and [View::hide] are not in this
    file.  Each starts one animation on the view and hands the animation
    engine a completion callback that fires exactly once, when the animation
    is completed; the hidden flag records which of the two was asked last. *)
Definition show (v : View) (cb : Callback) (animation : ViewAnimation) (s : App) : App :=
  let s := emit (EvShow (vid v)) s in
  let s := setHidden v false s in
  set_pending (pending s ++ [mkAnimation ShowAnim v cb animation]) s.

Definition hide (v : View) (cb : Callback) (animation : ViewAnimation) (s : App) : App :=
  let s := emit (EvHide (vid v)) s in
  let s := setHidden v true s in
  set_pending (pending s ++ [mkAnimation HideAnim v cb animation]) s.

(** ** Input blocking *)

Definition blockInputs (s : App) : App :=
  set_blockInputsTokens (blockInputsTokens s + 1) s.

Definition unblockInputs (s : App) : App :=
  if (blockInputsTokens s >? 0)%Z
  then set_blockInputsTokens (blockInputsTokens s - 1) s
  else s.

(** ** The application, over its collaborators *)

Section Application.

(** The layout component of a view ([getNextFocus], [getDefaultFocus]), the
    listeners and callbacks of application code, and the platform's button
    masks are not part of this file: the operations take them as given. *)
Variable getNextFocus : View -> FocusDirection -> nat -> option View.
Variable getDefaultFocus : View -> option View.
Variable userListener : nat -> App -> bool * App.
Variable userCallback : nat -> App -> App.
Variables KEY_DDOWN KEY_DUP KEY_DLEFT KEY_DRIGHT : Z.
Variables Key_PLUS Key_MINUS : Key.

(** *** giveFocus *)

Definition giveFocus (view : option View) (s : App) : App :=
  let oldFocus := currentFocus s in
  let newFocus := match view with Some v => getDefaultFocus v | None => None end in
  if negb (samePointer oldFocus newFocus) then
    let s := match oldFocus with Some o => emit (EvFocusLost (vid o)) s | None => s end in
    let s := set_currentFocus newFocus s in
    let s := emit (EvFocusChange (option_map vid newFocus)) s in
    match newFocus with Some n => emit (EvFocusGained (vid n)) s | None => s end
  else s.

(** *** navigate *)

(** The lookup at [cur]'s parent followed by the [while] loop: ask the parent
    of [cur]; with no answer, climb while the parent itself has a parent. *)
Fixpoint climb (direction : FocusDirection) (cur : View) : option View :=
  match getParent cur with
  | None => None
  | Some p =>
      match getNextFocus p direction (getParentUserData cur) with
      | Some nextFocus => Some nextFocus
      | None => if hasParent p then climb direction p else None
      end
  end.

Definition navigate (direction : FocusDirection) (s : App) : App :=
  match currentFocus s with
  | None => s
  | Some cur =>
      if negb (hasParent cur) then s
      else
        match climb direction cur with
        | None =>
            (* Application::currentFocus->shakeHighlight(direction) *)
            match currentFocus s with
            | Some f => emit (EvShakeHighlight (vid f) direction) s
            | None => s
            end
        | Some nextFocus => giveFocus (Some nextFocus) s
        end
  end.

(** *** Listeners *)

(** [Application::setDisplayFramerate]: the counter object is created when
    absent and asked for, deleted when present and not asked for. *)
Definition setDisplayFramerate (enabled : bool) (s : App) : App :=
  if negb (framerateCounter s) && enabled then set_framerateCounter true s
  else if framerateCounter s && negb enabled then set_framerateCounter false s
  else s.

Definition toggleFramerateDisplay (s : App) : App :=
  setDisplayFramerate (negb (framerateCounter s)) s.

(** [action.actionListener()]: [Application::quit] has an empty body. *)
Definition runListener (l : ActionListener) (s : App) : bool * App :=
  match l with
  | QuitListener => (true, s)
  | ToggleFpsListener => (true, toggleFramerateDisplay s)
  | UserListener n => userListener n s
  end.

(** *** handleAction *)

(** One listener call made by [handleAction], with what it returned. *)
Record Call := mkCall {
  call_view : nat;
  call_action : Action;
  call_result : bool
}.

(** The loop state of [handleAction]: the [std::set] of consumed keys, the
    application, and the listener calls made so far (oldest first). *)
Record Dispatch := mkDispatch {
  consumedKeys : list Key;
  app : App;
  calls : list Call
}.

Definition keyFound (k : Key) (consumed : list Key) : bool :=
  existsb (Z.eqb k) consumed.

Definition keyInsert (k : Key) (consumed : list Key) : list Key :=
  if keyFound k consumed then consumed else k :: consumed.

(** The body of the [for] loop, for one action of [hintParent]. *)
Definition handleAction_action (button : Z) (hintParent : View) (d : Dispatch)
    (action : Action) : Dispatch :=
  if negb (Z.eqb (key action) button) then d
  else if keyFound (key action) (consumedKeys d) then d
  else if available action then
    let '(r, s') := runListener (actionListener action) (app d) in
    let c := mkCall (vid hintParent) action r in
    if r then mkDispatch (keyInsert (key action) (consumedKeys d)) s' (calls d ++ [c])
    else mkDispatch (consumedKeys d) s' (calls d ++ [c])
  else d.

(** The [while] loop over the parent links. *)
Fixpoint handleAction_walk (button : Z) (hintParent : View) (d : Dispatch) : Dispatch :=
  let d := fold_left (handleAction_action button hintParent)
                     (getActions (app d) hintParent) d in
  match getParent hintParent with
  | Some p => handleAction_walk button p d
  | None => d
  end.

Definition handleAction_run (button : Z) (s : App) : Dispatch :=
  match currentFocus s with
  | Some f => handleAction_walk button f (mkDispatch [] s [])
  | None => mkDispatch [] s []
  end.

(** [!consumedKeys.empty()] together with the application after the call. *)
Definition handleAction (button : Z) (s : App) : bool * App :=
  let d := handleAction_run button s in
  (match consumedKeys d with [] => false | _ :: _ => true end, app d).

(** *** onGamepadButtonPressed *)

Definition maskSet (button mask : Z) : bool := negb (Z.eqb (Z.land button mask) 0).

Definition onGamepadButtonPressed (button : Z) (repeating : bool) (s : App) : App :=
  if negb (Z.eqb (blockInputsTokens s) 0) then s
  else if repeating && samePointer (repetitionOldFocus s) (currentFocus s) then s
  else
    let s := set_repetitionOldFocus (currentFocus s) s in
    let '(consumed, s) := handleAction button s in
    if consumed then s
    else if maskSet button KEY_DDOWN then navigate DOWN s
    else if maskSet button KEY_DUP then navigate UP s
    else if maskSet button KEY_DLEFT then navigate LEFT s
    else if maskSet button KEY_DRIGHT then navigate RIGHT s
    else s.

(** *** pushView *)

Definition pushView (view : View) (animation : ViewAnimation) (s : App) : App :=
  let s := blockInputs s in
  let last := if (0 <? length (viewStack s))%nat then back (viewStack s) else None in
  let fadeOut :=
    match last with
    | Some l => negb (isTranslucent s l) && negb (isTranslucent s view)
    | None => false
    end in
  let wait := isFade animation in
  let s := registerAction view Key_PLUS QuitListener s in
  let s := registerAction view Key_MINUS ToggleFpsListener s in
  let s :=
    match last with
    | Some l =>
        if fadeOut then
          let s := setForceTranslucent view true s in
          let s := if negb wait then show view UnblockInputs animation s else s in
          hide l (PushHideDone animation wait) animation s
        else s
    | None => s
    end in
  let s := emit (EvSetBoundaries (vid view)) s in
  let s := if negb fadeOut then show view UnblockInputs animation s
           else emit (EvAlphaZero (vid view)) s in
  let s := if (0 <? length (viewStack s))%nat
           then set_focusStack (focusStack s ++ [currentFocus s]) s
           else s in
  let s := emit (EvInvalidate (vid view)) s in
  let s := emit (EvWillAppear (vid view) true) s in
  let s := giveFocus (getDefaultFocus view) s in
  set_viewStack (viewStack s ++ [view]) s.

(** *** popView *)

Definition popView (animation : ViewAnimation) (cb : nat) (s : App) : App :=
  if (length (viewStack s) <=? 1)%nat then s
  else
    let s := blockInputs s in
    match back (viewStack s) with
    | None => s
    | Some last =>
        let s := emit (EvWillDisappear (vid last) true) s in
        let s := setForceTranslucent last true s in
        let wait := isFade animation in
        let s := hide last (PopHideDone last animation wait cb) animation s in
        let s :=
          if negb wait && (1 <? length (viewStack s))%nat then
            match nth_error (viewStack s) (length (viewStack s) - 2) with
            | Some toShow =>
                let s := emit (EvWillAppear (vid toShow) false) s in
                show toShow (UserCallback cb) animation s
            | None => s
            end
          else s in
        if (0 <? length (focusStack s))%nat then
          match back (focusStack s) with
          | Some newFocus =>
              let s := giveFocus newFocus s in
              set_focusStack (removelast (focusStack s)) s
          | None => s
          end
        else s
    end.

(** *** Completion callbacks *)

(** The bodies of the lambdas.  [viewStack[size - 1]] and [pop_back] on an
    empty vector are out of range in the source; here the first gives no view
    (and the lambda then does nothing more with it) and the second leaves the
    empty vector empty. *)
Definition runCallback (c : Callback) (s : App) : App :=
  match c with
  | UnblockInputs => unblockInputs s
  | PushHideDone animation wait =>
      match back (viewStack s) with
      | Some newLast =>
          let s := setForceTranslucent newLast false s in
          if wait then show newLast UnblockInputs animation s else s
      | None => s
      end
  | PopHideDone last animation wait cb =>
      let s := setForceTranslucent last false s in
      let s := set_viewStack (removelast (viewStack s)) s in
      let s := emit (EvDelete (vid last)) s in
      let s :=
        if (0 <? length (viewStack s))%nat && wait then
          match back (viewStack s) with
          | Some newLast =>
              if isHidden s newLast then
                let s := emit (EvWillAppear (vid newLast) false) s in
                show newLast (UserCallback cb) animation s
              else userCallback cb s
          | None => s
          end
        else s in
      unblockInputs s
  | UserCallback cb => userCallback cb s
  end.

Fixpoint removeAt {A : Type} (i : nat) (l : list A) : list A :=
  match l, i with
  | [], _ => []
  | _ :: t, O => t
  | x :: t, S j => x :: removeAt j t
  end.

(** Modelled from the spec: the animation engine is not in this file.  When
    the [i]-th running animation is completed it leaves the engine and its
    completion callback is called, once. *)
Definition complete (i : nat) (s : App) : App :=
  match nth_error (pending s) i with
  | Some a => runCallback (anim_cb a) (set_pending (removeAt i (pending s)) s)
  | None => s
  end.

(** *** Push, pop and animation completion as a transition system *)

(** The number of [unblockInputs] calls a pending callback still stands for:
    the ones it makes itself and the ones it passes on to a [show]. *)
Definition owedBy (c : Callback) : Z :=
  match c with
  | UnblockInputs => 1
  | PushHideDone _ wait => if wait then 1 else 0
  | PopHideDone _ _ _ _ => 1
  | UserCallback _ => 0
  end.

Definition owedIn (l : list Animation) : Z :=
  fold_right (fun a n => owedBy (anim_cb a) + n)%Z 0%Z l.

Definition owed (s : App) : Z := owedIn (pending s).

Definition isPopHide (a : Animation) : bool :=
  match anim_cb a with PopHideDone _ _ _ _ => true | _ => false end.

Definition popsIn (l : list Animation) : nat := length (filter isPopHide l).

(** The pops whose hide animation is still running. *)
Definition popsInFlight (s : App) : nat := popsIn (pending s).

(** Increments not yet matched by a decrement that is still to come. *)
Definition balance (s : App) : Z := (blockInputsTokens s - owed s)%Z.

(** Views on the stack that neither have a saved focus nor are being popped. *)
Definition slack (s : App) : Z :=
  (Z.of_nat (length (viewStack s)) - Z.of_nat (length (focusStack s))
   - Z.of_nat (popsInFlight s))%Z.

(** A caller's callback that leaves no increment of the counter unmatched:
    what it adds to the counter it also starts animations for. *)
Definition keepsBalance (f : App -> App) : Prop :=
  forall s, balance (f s) = balance s.

(** A caller's callback that leaves the two stacks in step. *)
Definition keepsSlack (f : App -> App) : Prop :=
  forall s, slack (f s) = slack s.

(** The vector accesses a completion callback makes are in range: the lambda
    of [pushView] reads the top of the view stack and the lambda of [popView]
    takes a view off it. *)
Definition inRange (a : Animation) (s : App) : Prop :=
  match anim_cb a with
  | PushHideDone _ _ | PopHideDone _ _ _ _ => viewStack s <> []
  | UnblockInputs | UserCallback _ => True
  end.

(** One step of the application: a push, a pop, or the completion of one
    running animation whose callback stays in range. *)
Inductive move : App -> App -> Prop :=
| move_push view animation s :
    move s (pushView view animation s)
| move_pop animation cb s :
    move s (popView animation cb s)
| move_complete i a s :
    nth_error (pending s) i = Some a ->
    inRange a s ->
    move s (complete i s).

Inductive runs (s0 : App) : App -> Prop :=
| runs_here : runs s0 s0
| runs_next s s' : runs s0 s -> move s s' -> runs s0 s'.

(** The same steps, with [popView] called only while no earlier pop is still
    in flight: until the hide animation of a pop is completed, the view it is
    taking off is still on the view stack. *)
Inductive transition : App -> App -> Prop :=
| transition_push view animation s :
    transition s (pushView view animation s)
| transition_pop animation cb s :
    popsInFlight s = 0%nat ->
    transition s (popView animation cb s)
| transition_complete i a s :
    nth_error (pending s) i = Some a ->
    transition s (complete i s).

Inductive reaches (s0 : App) : App -> Prop :=
| reaches_here : reaches s0 s0
| reaches_next s s' : reaches s0 s -> transition s s' -> reaches s0 s'.

(** A push or a pop, as a caller asks for it. *)
Inductive Operation :=
| Push (view : View) (animation : ViewAnimation)
| Pop (animation : ViewAnimation) (cb : nat).

Definition perform (op : Operation) (s : App) : App :=
  match op with
  | Push view animation => pushView view animation s
  | Pop animation cb => popView animation cb s
  end.

(** The running animations are completed, in some order, until none is left. *)
Inductive settles : App -> App -> Prop :=
| settles_done s :
    pending s = [] ->
    settles s s
| settles_next i a s s' :
    nth_error (pending s) i = Some a ->
    settles (complete i s) s' ->
    settles s s'.

(** A sequence of operations, each one completed (nothing left in flight)
    before the next is asked for. *)
Inductive completedRun : list Operation -> App -> App -> Prop :=
| completedRun_nil s :
    completedRun [] s s
| completedRun_cons op ops s s1 s2 :
    settles (perform op s) s1 ->
    completedRun ops s1 s2 ->
    completedRun (op :: ops) s s2.

(** The same, computed: the oldest running animation is completed first,
    for at most [fuel] completions per operation. *)
Fixpoint settle (fuel : nat) (s : App) : option App :=
  match pending s with
  | [] => Some s
  | _ :: _ =>
      match fuel with
      | O => None
      | S fuel' => settle fuel' (complete 0 s)
      end
  end.

Fixpoint performAll (fuel : nat) (ops : list Operation) (s : App) : option App :=
  match ops with
  | [] => Some s
  | op :: ops' =>
      match settle fuel (perform op s) with
      | Some s1 => performAll fuel ops' s1
      | None => None
      end
  end.

(** *** frame *)

(** The first loop of [frame]: [i] is the loop counter and [n] the number of
    iterations left before [i] reaches [viewStack.size()]. *)
Fixpoint collectViews (s : App) (i n : nat) (viewsToDraw : list View) : list View :=
  match n with
  | O => viewsToDraw
  | S n' =>
      match nth_error (viewStack s) (length (viewStack s) - 1 - i) with
      | Some view =>
          let viewsToDraw := viewsToDraw ++ [view] in
          if negb (isTranslucent s view) then viewsToDraw
          else collectViews s (S i) n' viewsToDraw
      | None => viewsToDraw
      end
  end.

Definition viewsToDraw (s : App) : list View :=
  collectViews s 0 (length (viewStack s)) [].

(** The second loop: [view->frame(&frameContext)] for
    [viewsToDraw[size - 1 - i]], [i] counting up. *)
Fixpoint drawViews (toDraw : list View) (i n : nat) (s : App) : App :=
  match n with
  | O => s
  | S n' =>
      match nth_error toDraw (length toDraw - 1 - i) with
      | Some view => drawViews toDraw (S i) n' (emit (EvFrame (vid view)) s)
      | None => s
      end
  end.

Definition frame (s : App) : App :=
  let toDraw := viewsToDraw s in
  let s := drawViews toDraw 0 (length toDraw) s in
  let s := if framerateCounter s then emit EvFramerateCounterFrame s else s in
  emit EvNotificationsFrame s.

End Application.

(** ** The gamepad part of mainLoop *)

Definition BUTTON_REPEAT_DELAY : Z := 15.
Definition BUTTON_REPEAT_CADENCY : Z := 5.

(** What the button scan keeps between two calls of [mainLoop]: the array
    [Application::buttons] and the two function-local statics. *)
Record InputStatics := mkInputStatics {
  buttons : nat -> bool;
  buttonPressTime : Z;
  repeatingButtonTimer : Z
}.

(** What one call of [mainLoop] reads from the platform: the held buttons and
    the two readings of [cpu_features_get_time_usec] (the one compared with
    [buttonPressTime], then the one stored into it). *)
Record Tick := mkTick {
  kDown : Z;
  timeCompared : Z;
  timeStored : Z
}.

Section InputScan.

(** [MaxButtons] comes from a header.  The scan is written over any handler of
    button presses, so that it can be run with
    [Application::onGamepadButtonPressed] or with a recorder of the calls. *)
Variable MaxButtons : nat.
Variable H : Type.
Variable onPressed : Z -> bool -> H -> H.

Record Scan := mkScan {
  anyButtonPressed : bool;
  statics : InputStatics;
  handled : H
}.

(** [(1 << i)]: exact for the bits of an [int], which covers the buttons the
    platform reports. *)
Definition buttonMask (i : nat) : Z := Z.shiftl 1 (Z.of_nat i).

Definition isDown (held : Z) (i : nat) : bool :=
  negb (Z.eqb (Z.land held (buttonMask i)) 0).

Definition setButton (i : nat) (down : bool) (st : InputStatics) : InputStatics :=
  mkInputStatics (fun j => if Nat.eqb j i then down else buttons st j)
                 (buttonPressTime st) (repeatingButtonTimer st).

(** The body of the [for] loop over the buttons. *)
Definition scanButton (held : Z) (sc : Scan) (i : nat) : Scan :=
  let button := buttonMask i in
  let down := isDown held i in
  let st := statics sc in
  let changed := xorb (buttons st i) down in
  let sc :=
    if down then
      let repeating :=
        (repeatingButtonTimer st >? BUTTON_REPEAT_DELAY)%Z
        && (Z.rem (repeatingButtonTimer st) BUTTON_REPEAT_CADENCY =? 0)%Z in
      if changed || repeating
      then mkScan true st (onPressed button repeating (handled sc))
      else mkScan true st (handled sc)
    else sc in
  let st := if changed then mkInputStatics (buttons st) 0 0 else st in
  mkScan (anyButtonPressed sc) (setButton i down st) (handled sc).

(** Lines 402 to 434 of [mainLoop]. *)
Definition pollButtons (t : Tick) (st : InputStatics) (h : H) : InputStatics * H :=
  let sc := fold_left (scanButton (kDown t)) (seq 0 MaxButtons) (mkScan false st h) in
  let st := statics sc in
  if anyButtonPressed sc && (timeCompared t - buttonPressTime st >? 1000)%Z
  then (mkInputStatics (buttons st) (timeStored t) (repeatingButtonTimer st + 1), handled sc)
  else (st, handled sc).

End InputScan.

Arguments mkScan {H} _ _ _.
Arguments anyButtonPressed {H} _.
Arguments statics {H} _.
Arguments handled {H} _.
Arguments scanButton {H} onPressed held sc i.
Arguments pollButtons MaxButtons {H} onPressed t st h.

(** The calls [Application::onGamepadButtonPressed(button, repeating)] one
    scan makes, in order. *)
Definition Press : Type := Z * bool.

Definition record (button : Z) (repeating : bool) (l : list Press) : list Press :=
  l ++ [(button, repeating)].

Definition presses (MaxButtons : nat) (t : Tick) (st : InputStatics) : list Press :=
  snd (pollButtons MaxButtons record t st []).

Definition nextStatics (MaxButtons : nat) (t : Tick) (st : InputStatics) : InputStatics :=
  fst (pollButtons MaxButtons record t st []).

(** The presses of each of a series of calls of [mainLoop]. *)
Fixpoint pressesOfTicks (MaxButtons : nat) (ts : list Tick) (st : InputStatics)
    : list (list Press) :=
  match ts with
  | [] => []
  | t :: ts' =>
      presses MaxButtons t st :: pressesOfTicks MaxButtons ts' (nextStatics MaxButtons t st)
  end.

(** The statics left by a series of calls of [mainLoop]. *)
Fixpoint staticsAfter (MaxButtons : nat) (ts : list Tick) (st : InputStatics)
    : InputStatics :=
  match ts with
  | [] => st
  | t :: ts' => staticsAfter MaxButtons ts' (nextStatics MaxButtons t st)
  end.

(** The scan as [mainLoop] runs it: every press goes to
    [Application::onGamepadButtonPressed]. *)
Definition mainLoop_gamepad
    (getNextFocus : View -> FocusDirection -> nat -> option View)
    (getDefaultFocus : View -> option View)
    (userListener : nat -> App -> bool * App)
    (KEY_DDOWN KEY_DUP KEY_DLEFT KEY_DRIGHT : Z)
    (MaxButtons : nat) (t : Tick) (st : InputStatics) (s : App) : InputStatics * App :=
  pollButtons MaxButtons
    (onGamepadButtonPressed getNextFocus getDefaultFocus userListener
       KEY_DDOWN KEY_DUP KEY_DLEFT KEY_DRIGHT)
    t st s.

(** Handing a list of recorded presses to a handler, in order. *)
Definition replay {H : Type} (onPressed : Z -> bool -> H -> H) (l : list Press) (h : H) : H :=
  fold_left (fun h p => onPressed (fst p) (snd p) h) l h.

(** ** Sequences of block and unblock calls *)

Inductive BlockOp := Block | Unblock.

Definition applyBlockOp (s : App) (op : BlockOp) : App :=
  match op with
  | Block => blockInputs s
  | Unblock => unblockInputs s
  end.

Definition applyBlockOps (ops : list BlockOp) (s : App) : App :=
  fold_left applyBlockOp ops s.

(** ** Concrete views and states, used to exercise the statements below *)

Definition noFields : list (nat * ViewFields) := [].

(** The statics as [Application::init] leaves them. *)
Definition initialApp : App := mkApp [] [] None None 0 false noFields [] [].

Definition rootView : View := mkView 1 false 0 None.
Definition boxView : View := mkView 2 false 0 (Some rootView).
Definition itemView : View := mkView 3 false 7 (Some boxView).
Definition dialogView : View := mkView 4 false 0 None.
Definition overlayView : View := mkView 5 true 0 None.

Definition noNextFocus : View -> FocusDirection -> nat -> option View := fun _ _ _ => None.
Definition selfFocus : View -> option View := fun v => Some v.
Definition idleListener : nat -> App -> bool * App := fun _ s => (false, s).
Definition idleCallback : nat -> App -> App := fun _ s => s.

(** The platform's masks for the four directions and the two keys
    [pushView] binds, as the console's input library numbers them. *)
Definition padDown : Z := 32768.
Definition padUp : Z := 8192.
Definition padLeft : Z := 4096.
Definition padRight : Z := 16384.
Definition keyPlus : Key := 1024%Z.
Definition keyMinus : Key := 2048%Z.

(** A root view on the stack, focused, nothing running. *)
Definition rootApp : App :=
  mkApp [rootView] [] (Some rootView) None 0 false noFields [] [].

(** A list item focused inside the root view's box. *)
Definition itemApp : App :=
  mkApp [rootView] [] (Some itemView) (Some itemView) 0 false noFields [] [].

(** The same while a transition blocks the inputs. *)
Definition blockedApp : App :=
  mkApp [rootView] [] (Some itemView) None 1 false noFields [] [].

(** A dialog pushed over the root with the fade animation, its two
    animations run to their end, then popped, and the pop's two animations
    run to their end. *)
Definition dialogPushed : App := pushView selfFocus keyPlus keyMinus dialogView FADE rootApp.
Definition dialogHideDone : App := complete idleCallback 0 dialogPushed.
Definition dialogShown : App := complete idleCallback 0 dialogHideDone.
Definition dialogPopped : App := popView selfFocus FADE 0 dialogShown.
Definition dialogGone : App := complete idleCallback 0 dialogPopped.
Definition rootBack : App := complete idleCallback 0 dialogGone.

(** The buttons in [held] held over [n] calls of [mainLoop], the clock read
    at [start] and then every [step] microseconds. *)
Definition heldTicks (held start step : Z) (n : nat) : list Tick :=
  map (fun k => mkTick held (start + step * Z.of_nat k)%Z (start + step * Z.of_nat k)%Z)
      (seq 0 n).

Definition idleTick (now : Z) : Tick := mkTick 0 now now.

(** ** Reference definitions for the statements *)

(** The lookups a climb from [cur] can make, nearest first: each proper
    ancestor, with the user data of the child the climb comes from. *)
Fixpoint ancestorLookups (cur : View) : list (View * nat) :=
  match getParent cur with
  | Some p => (p, getParentUserData cur) :: ancestorLookups p
  | None => []
  end.

(** Walking a stack from its top: the views up to and including the first
    one that is not translucent. *)
Fixpoint takeThroughOpaque (translucent : View -> bool) (fromTop : list View) : list View :=
  match fromTop with
  | [] => []
  | v :: below => if translucent v then v :: takeThroughOpaque translucent below else [v]
  end.

(** The visible part of the view stack, bottom first. *)
Definition visibleViews (s : App) : list View :=
  rev (takeThroughOpaque (isTranslucent s) (rev (viewStack s))).

(** Calls of [mainLoop] more than 1000 microseconds apart: each reading that
    is compared comes more than 1000 after the reading stored before it. *)
Fixpoint spaced (previous : Z) (ts : list Tick) : Prop :=
  match ts with
  | [] => True
  | t :: ts' => (timeCompared t - previous > 1000)%Z /\ spaced (timeStored t) ts'
  end.

(** The buttons in [held] are the ones held during the call. *)
Definition holds (held : Z) (t : Tick) : Prop := kDown t = held.

(** No button is held during the call. *)
Definition idle (t : Tick) : Prop := kDown t = 0%Z.

(** Nothing was held at the last call. *)
Definition released (st : InputStatics) : Prop :=
  (forall i, buttons st i = false) /\ repeatingButtonTimer st = 0%Z.

(** The buttons in [held], and no other, have been held for the last [k]
    calls. *)
Definition holding (MaxButtons : nat) (held : Z) (k : nat) (stored : Z)
    (st : InputStatics) : Prop :=
  (forall i, buttons st i = Nat.ltb i MaxButtons && isDown held i)
  /\ repeatingButtonTimer st = Z.of_nat k
  /\ buttonPressTime st = stored.

(** The statics when the program starts. *)
Definition restStatics : InputStatics := mkInputStatics (fun _ => false) 0 0.

Definition matchesButton (button : Z) (c : Call) : Prop :=
  key (call_action c) = button /\ available (call_action c) = true.

Definition declined (c : Call) : Prop := call_result c = false.

(** The loop invariant of [handleAction]: every call made so far was for the
    pressed key on an available action; and either nothing is consumed and
    every listener declined, or the key is consumed and the call that
    consumed it is the last one made. *)
Definition dispatchOk (button : Z) (d : Dispatch) : Prop :=
  Forall (matchesButton button) (calls d)
  /\ ((consumedKeys d = [] /\ Forall declined (calls d))
      \/ (consumedKeys d = [button]
          /\ exists pre c, calls d = pre ++ [c] /\ Forall declined pre /\ call_result c = true)).

(** A lookup at an ancestor that offers no view to focus. *)
Definition noCandidate (getNextFocus : View -> FocusDirection -> nat -> option View)
    (direction : FocusDirection) (q : View * nat) : Prop :=
  getNextFocus (fst q) direction (snd q) = None.

(** The [frame] calls on a list of views, in order. *)
Definition frameEvents (l : list View) : list Event := map (fun v => EvFrame (vid v)) l.

(** The test that makes a press of a held button a repeated one. *)
Definition repeatDue (timer : Z) : bool :=
  (timer >? BUTTON_REPEAT_DELAY)%Z && (Z.rem timer BUTTON_REPEAT_CADENCY =? 0)%Z.

(** The buttons of [held] that the scan looks at, lowest first. *)
Definition downs (MaxButtons : nat) (held : Z) : list nat :=
  filter (isDown held) (seq 0 MaxButtons).

Definition pressesFor (repeating : bool) (l : list nat) : list Press :=
  map (fun i => (buttonMask i, repeating)) l.

(** What the buttons held are expected to trigger at the [k]-th call of
    [mainLoop] since they went down: a plain press of each at first, then a
    repeated press of each once past the delay, every
    [BUTTON_REPEAT_CADENCY] calls. *)
Definition expectedPresses (MaxButtons : nat) (held : Z) (k : nat) : list Press :=
  if Nat.eqb k 0 then pressesFor false (downs MaxButtons held)
  else if repeatDue (Z.of_nat k) then pressesFor true (downs MaxButtons held)
  else [].

(** Induction along the parent links of a view. *)
Fixpoint View_parent_ind (P : View -> Prop)
    (Hroot : forall i t u, P (mkView i t u None))
    (Hchild : forall i t u p, P p -> P (mkView i t u (Some p)))
    (v : View) : P v :=
  match v with
  | mkView i t u None => Hroot i t u
  | mkView i t u (Some p) => Hchild i t u p (View_parent_ind P Hroot Hchild p)
  end.

(** * Properties *)

Section Properties.

Variable getNextFocus : View -> FocusDirection -> nat -> option View.
Variable getDefaultFocus : View -> option View.
Variable userListener : nat -> App -> bool * App.
Variable userCallback : nat -> App -> App.
Variables KEY_DDOWN KEY_DUP KEY_DLEFT KEY_DRIGHT : Z.
Variables Key_PLUS Key_MINUS : Key.

Open Scope Z_scope.

(** *** The input-block counter *)

Lemma unblockInputs_tokens s :
  blockInputsTokens (unblockInputs s) =
  if blockInputsTokens s >? 0 then blockInputsTokens s - 1 else blockInputsTokens s.
Proof. unfold unblockInputs. destruct (blockInputsTokens s >? 0); reflexivity. Qed.

Lemma applyBlockOp_nonneg s op :
  0 <= blockInputsTokens s -> 0 <= blockInputsTokens (applyBlockOp s op).
Proof.
  intros Hs. destruct op; simpl.
  - lia.
  - rewrite unblockInputs_tokens. destruct (Z.gtb_spec (blockInputsTokens s) 0); lia.
Qed.

(** C9. The counter never becomes negative: from a non-negative value, every
    sequence of [blockInputs] and [unblockInputs] calls leaves it
    non-negative; [unblockInputs] takes one off a strictly positive counter
    and leaves the whole application untouched when the counter is zero. *)
Theorem blockInputsTokens_never_negative (ops : list BlockOp) (s : App) :
  0 <= blockInputsTokens s ->
  0 <= blockInputsTokens (applyBlockOps ops s)
  /\ unblockInputs s =
     (if blockInputsTokens s =? 0 then s
      else set_blockInputsTokens (blockInputsTokens s - 1) s).
Proof.
  intros Hs. split.
  - revert s Hs. induction ops as [|op ops IH]; intros s Hs; simpl.
    + exact Hs.
    + apply IH. apply applyBlockOp_nonneg. exact Hs.
  - unfold unblockInputs.
    destruct (Z.gtb_spec (blockInputsTokens s) 0), (Z.eqb_spec (blockInputsTokens s) 0);
      try reflexivity; lia.
Qed.

(** *** popView on a stack of at most one view *)

Lemma popView_unchanged (animation : ViewAnimation) (cb : nat) (s : App) :
  (length (viewStack s) <= 1)%nat ->
  popView getDefaultFocus animation cb s = s.
Proof.
  intros Hlen. unfold popView.
  destruct (Nat.leb_spec (length (viewStack s)) 1) as [_|Hgt]; [reflexivity | lia].
Qed.

(** C3. With at most one view on the stack, [popView] returns the application
    it was given, for every animation and callback: stacks, focus, counter,
    running animations and the trace of hook calls ([willDisappear], [hide],
    deletions) are all the same. *)
Theorem popView_root_is_noop (animation : ViewAnimation) (cb : nat) (s : App) :
  (length (viewStack s) <= 1)%nat ->
  popView getDefaultFocus animation cb s = s.
Proof.
  intros Hlen. unfold popView.
  destruct (Nat.leb_spec (length (viewStack s)) 1) as [_|Hgt].
  - reflexivity.
  - exfalso. lia.
Qed.

(** *** onGamepadButtonPressed *)

(** C6. While the counter is positive a button press does nothing at all:
    the application is returned unchanged, whatever the button and the
    repeat flag. *)
Theorem onGamepadButtonPressed_blocked (button : Z) (repeating : bool) (s : App) :
  0 < blockInputsTokens s ->
  onGamepadButtonPressed getNextFocus getDefaultFocus userListener
    KEY_DDOWN KEY_DUP KEY_DLEFT KEY_DRIGHT button repeating s = s.
Proof.
  intros Hpos. unfold onGamepadButtonPressed.
  destruct (Z.eqb_spec (blockInputsTokens s) 0) as [E|_]; [lia | reflexivity].
Qed.

(** C10. A repeated press is dropped when the focus is the one recorded at
    the last processed press: nothing is dispatched and the application is
    returned unchanged. *)
Theorem onGamepadButtonPressed_repeat_dropped (button : Z) (s : App) :
  samePointer (repetitionOldFocus s) (currentFocus s) = true ->
  onGamepadButtonPressed getNextFocus getDefaultFocus userListener
    KEY_DDOWN KEY_DUP KEY_DLEFT KEY_DRIGHT button true s = s.
Proof.
  intros Hsame. unfold onGamepadButtonPressed.
  destruct (negb (blockInputsTokens s =? 0)); [reflexivity|].
  rewrite Hsame. reflexivity.
Qed.

(** *** handleAction *)

Lemma handleAction_action_ok button hintParent d action :
  dispatchOk button d ->
  dispatchOk button (handleAction_action userListener button hintParent d action).
Proof.
  intros [Hm Hc]. unfold handleAction_action.
  destruct (Z.eqb_spec (key action) button) as [Hk|Hk]; simpl; [|split; assumption].
  destruct Hc as [[Hnone Hdecl]|[Hone Hlast]].
  - rewrite Hnone. simpl.
    destruct (available action) eqn:Hav; [|split; [assumption | left; split; assumption]].
    destruct (runListener userListener (actionListener action) (app d)) as [r s'] eqn:Hrun.
    destruct r; simpl.
    + split.
      * apply Forall_app. split; [assumption|]. constructor; [|constructor].
        split; assumption.
      * right. unfold keyInsert. rewrite Hk. simpl. split; [reflexivity|].
        eexists _, _. split; [reflexivity|]. split; [assumption | reflexivity].
    + split.
      * apply Forall_app. split; [assumption|]. constructor; [|constructor].
        split; assumption.
      * left. split; [reflexivity|]. apply Forall_app. split; [assumption|].
        constructor; [reflexivity | constructor].
  - rewrite Hone, Hk. unfold keyFound. simpl. rewrite Z.eqb_refl. simpl.
    split; [assumption | right; split; assumption].
Qed.

Lemma handleAction_actions_ok button hintParent acts d :
  dispatchOk button d ->
  dispatchOk button (fold_left (handleAction_action userListener button hintParent) acts d).
Proof.
  revert d. induction acts as [|a acts IH]; intros d Hd; simpl; [assumption|].
  apply IH. apply handleAction_action_ok. assumption.
Qed.

Lemma handleAction_walk_ok button hintParent :
  forall d, dispatchOk button d ->
            dispatchOk button (handleAction_walk userListener button hintParent d).
Proof.
  induction hintParent as [i t u|i t u p IH] using View_parent_ind; intros d Hd; simpl.
  - apply handleAction_actions_ok. assumption.
  - apply IH. apply handleAction_actions_ok. assumption.
Qed.

Lemma handleAction_run_ok button s :
  dispatchOk button (handleAction_run userListener button s).
Proof.
  assert (H0 : dispatchOk button (mkDispatch [] s [])).
  { split; [constructor | left; split; [reflexivity | constructor]]. }
  unfold handleAction_run. destruct (currentFocus s); [|assumption].
  apply handleAction_walk_ok. assumption.
Qed.

Lemma declined_existsb l : Forall declined l -> existsb call_result l = false.
Proof.
  induction 1 as [|c l Hc _ IH]; simpl; [reflexivity|].
  unfold declined in Hc. rewrite Hc, IH. reflexivity.
Qed.

Lemma declined_filter l : Forall declined l -> filter call_result l = [].
Proof.
  induction 1 as [|c l Hc _ IH]; simpl; [reflexivity|].
  unfold declined in Hc. rewrite Hc. assumption.
Qed.

(** C4. One call of [handleAction] makes at most one listener call that
    returns true, and that call is the last listener call of the dispatch:
    the calls are a run of calls that all returned false, followed by nothing
    or by one call that returned true, after which no action is called, at
    the same node or nearer the root.  Every call is for the pressed key on
    an available action, and the result of [handleAction] is true exactly
    when there is a call that returned true. *)
Theorem handleAction_single_consumer (button : Z) (s : App) :
  let d := handleAction_run userListener button s in
  exists refused consuming,
    calls d = refused ++ consuming
    /\ Forall declined refused
    /\ (consuming = [] \/ exists c, consuming = [c] /\ call_result c = true)
    /\ handleAction userListener button s
       = (match consuming with [] => false | _ :: _ => true end, app d)
    /\ handleAction userListener button s = (existsb call_result (calls d), app d)
    /\ (length (filter call_result (calls d)) <= 1)%nat
    /\ Forall (matchesButton button) (calls d).
Proof.
  intros d. destruct (handleAction_run_ok button s) as [Hm Hc]. fold d in Hm, Hc.
  unfold handleAction. fold d.
  destruct Hc as [[Hnone Hdecl]|[Hone (pre0 & c0 & Hcalls & Hpre & Hc0)]].
  - exists (calls d), [].
    rewrite Hnone, (declined_existsb _ Hdecl), (declined_filter _ Hdecl), app_nil_r.
    repeat split; simpl; try lia; try assumption. left. reflexivity.
  - exists pre0, [c0].
    rewrite Hone, Hcalls, existsb_app, filter_app, (declined_filter _ Hpre). simpl.
    rewrite Hc0, orb_true_r. simpl.
    repeat split; try assumption; try lia.
    + right. exists c0. split; [reflexivity | assumption].
    + rewrite <- Hcalls. assumption.
Qed.

(** *** navigate *)

Lemma climb_without_candidate direction cur :
  Forall (noCandidate getNextFocus direction) (ancestorLookups cur) ->
  climb getNextFocus direction cur = None.
Proof.
  induction cur as [i t u|i t u p IH] using View_parent_ind; intros Hall; simpl.
  - reflexivity.
  - simpl in Hall. inversion Hall as [|q l Hq Hrest]; subst.
    unfold noCandidate in Hq. simpl in Hq. rewrite Hq.
    destruct (hasParent p); [apply IH; assumption | reflexivity].
Qed.

(** C5. When no ancestor consulted from the current focus offers a next
    focus ([noCandidate] at every lookup of the climb), [navigate] leaves the
    focus where it is; it returns the application untouched when there is no
    focus or the focus has no parent, and otherwise only adds one
    [shakeHighlight] call, on the original focus, in the direction asked. *)
Theorem navigate_without_candidate (direction : FocusDirection) (s : App) :
  (forall cur, currentFocus s = Some cur ->
               Forall (noCandidate getNextFocus direction) (ancestorLookups cur)) ->
  navigate getNextFocus getDefaultFocus direction s =
    match currentFocus s with
    | Some cur =>
        if hasParent cur then emit (EvShakeHighlight (vid cur) direction) s else s
    | None => s
    end
  /\ currentFocus (navigate getNextFocus getDefaultFocus direction s) = currentFocus s.
Proof.
  intros Hall. unfold navigate.
  destruct (currentFocus s) as [cur|] eqn:Hcur; [|split; [reflexivity | assumption]].
  destruct (hasParent cur); simpl; [|split; [reflexivity | assumption]].
  rewrite (climb_without_candidate direction cur (Hall cur eq_refl)).
  split; [reflexivity | simpl; assumption].
Qed.

Lemma exists_last_or_nil {A : Type} (l : list A) :
  l = [] \/ exists body x, l = body ++ [x].
Proof.
  destruct l as [|a l]; [left; reflexivity|].
  right. destruct (@exists_last _ (a :: l)) as (body & x & H); [discriminate|].
  exists body, x. assumption.
Qed.

(** *** frame *)

Lemma skipn_nth_error {A : Type} (l : list A) :
  forall i x, nth_error l i = Some x -> skipn i l = x :: skipn (S i) l.
Proof.
  induction l as [|y l IH]; intros [|i] x Hx; simpl in *; try discriminate.
  - injection Hx as ->. reflexivity.
  - apply IH. assumption.
Qed.

Lemma nth_error_from_top {A : Type} (l : list A) (i : nat) :
  (i < length l)%nat -> nth_error l (length l - 1 - i) = nth_error (rev l) i.
Proof.
  intros Hi. rewrite nth_error_rev.
  destruct (Nat.ltb_spec i (length l)) as [_|Hge]; [|lia].
  f_equal. lia.
Qed.

Lemma collectViews_spec s :
  forall n i acc,
    (i + n = length (viewStack s))%nat ->
    collectViews s i n acc =
    acc ++ takeThroughOpaque (isTranslucent s) (skipn i (rev (viewStack s))).
Proof.
  induction n as [|n IH]; intros i acc Hlen; cbn [collectViews].
  - rewrite skipn_all2; [simpl; rewrite app_nil_r; reflexivity|].
    rewrite length_rev. lia.
  - rewrite nth_error_from_top by lia.
    destruct (nth_error (rev (viewStack s)) i) as [view|] eqn:Hview.
    + rewrite (skipn_nth_error _ _ _ Hview). simpl.
      destruct (isTranslucent s view); simpl; [|reflexivity].
      rewrite IH by lia. rewrite <- app_assoc. reflexivity.
    + exfalso. apply nth_error_None in Hview. rewrite length_rev in Hview. lia.
Qed.

Lemma viewsToDraw_spec s :
  viewsToDraw s = takeThroughOpaque (isTranslucent s) (rev (viewStack s)).
Proof. unfold viewsToDraw. rewrite collectViews_spec by lia. reflexivity. Qed.

Lemma set_trace_same s : set_trace (trace s) s = s.
Proof. destruct s; reflexivity. Qed.

Lemma drawViews_spec toDraw :
  forall n i s,
    (i + n = length toDraw)%nat ->
    drawViews toDraw i n s =
    set_trace (trace s ++ frameEvents (skipn i (rev toDraw))) s.
Proof.
  induction n as [|n IH]; intros i s Hlen; cbn [drawViews].
  - rewrite skipn_all2 by (rewrite length_rev; lia). simpl.
    rewrite app_nil_r, set_trace_same. reflexivity.
  - rewrite nth_error_from_top by lia.
    destruct (nth_error (rev toDraw) i) as [view|] eqn:Hview.
    + rewrite (skipn_nth_error _ _ _ Hview), IH by lia. simpl.
      unfold emit, set_trace. simpl. rewrite <- app_assoc. reflexivity.
    + exfalso. apply nth_error_None in Hview. rewrite length_rev in Hview. lia.
Qed.

(** Shape of what the walk from the top keeps: a prefix of the walk whose
    views, the last one apart, are all translucent; and when the walk stops
    early the last view kept is not translucent. *)
Lemma takeThroughOpaque_shape translucent fromTop :
  exists skipped,
    fromTop = takeThroughOpaque translucent fromTop ++ skipped
    /\ Forall (fun v => translucent v = true)
              (removelast (takeThroughOpaque translucent fromTop))
    /\ (skipped = []
        \/ exists kept v,
             takeThroughOpaque translucent fromTop = kept ++ [v] /\ translucent v = false).
Proof.
  induction fromTop as [|v below (skipped & Heq & Hall & Hstop)]; simpl.
  - exists []. repeat split; [constructor | left; reflexivity].
  - destruct (translucent v) eqn:Hv.
    + exists skipped. split; [simpl; f_equal; exact Heq|]. split.
      * destruct (takeThroughOpaque translucent below) eqn:Ht; simpl; [constructor|].
        constructor; assumption.
      * destruct Hstop as [Hnil|(kept & w & Hk & Hw)]; [left; assumption|].
        right. exists (v :: kept), w. rewrite Hk. split; [reflexivity | assumption].
    + exists below. split; [reflexivity|]. split; [constructor|].
      right. exists [], v. split; [reflexivity | assumption].
Qed.

(** C7. The render pass draws the part of the view stack that starts at the
    first view, counting from the top, that is not translucent (the whole
    stack when every view is translucent) and runs to the top: nothing below
    is drawn, and the views are drawn bottom first, top last, before the
    framerate counter and the notifications. *)
Theorem frame_draws_visible_suffix (s : App) :
  exists below drawn,
    viewStack s = below ++ drawn
    /\ drawn = visibleViews s
    /\ viewsToDraw s = rev drawn
    /\ trace (frame s) =
       trace s ++ frameEvents drawn
       ++ (if framerateCounter s then [EvFramerateCounterFrame] else [])
       ++ [EvNotificationsFrame]
    /\ Forall (fun v => isTranslucent s v = true) (tl drawn)
    /\ (below = [] \/ exists v above, drawn = v :: above /\ isTranslucent s v = false).
Proof.
  destruct (takeThroughOpaque_shape (isTranslucent s) (rev (viewStack s)))
    as (skipped & Heq & Hall & Hstop).
  exists (rev skipped), (visibleViews s). unfold visibleViews.
  split.
  { rewrite <- rev_app_distr, <- Heq, rev_involutive. reflexivity. }
  split; [reflexivity|].
  split.
  { rewrite rev_involutive. apply viewsToDraw_spec. }
  split.
  { unfold frame. rewrite drawViews_spec by lia. simpl.
    rewrite viewsToDraw_spec.
    destruct (framerateCounter s); simpl; rewrite <- ?app_assoc; reflexivity. }
  split.
  { destruct (exists_last_or_nil (takeThroughOpaque (isTranslucent s) (rev (viewStack s))))
      as [Hnil|(kept & v & Hk)].
    - rewrite Hnil. constructor.
    - rewrite Hk in Hall |- *. rewrite removelast_last in Hall.
      rewrite rev_app_distr. simpl. apply Forall_rev. assumption. }
  destruct Hstop as [Hnil|(kept & v & Hk & Hv)].
  - left. rewrite Hnil. reflexivity.
  - right. exists v, (rev kept). rewrite Hk, rev_app_distr. split; [reflexivity | assumption].
Qed.

(** *** Transitions: matched increments, and the two stacks in step *)

Section Transitions.

#[local] Arguments Z.add : simpl never.
#[local] Arguments Z.sub : simpl never.
#[local] Arguments Z.of_nat : simpl never.
#[local] Arguments owedIn : simpl never.
#[local] Arguments popsIn : simpl never.

Hypothesis userCallback_keepsBalance : forall n, keepsBalance (userCallback n).
Hypothesis userCallback_keepsSlack : forall n, keepsSlack (userCallback n).

#[local] Abbreviation push := (pushView getDefaultFocus Key_PLUS Key_MINUS).
#[local] Abbreviation pop := (popView getDefaultFocus).
#[local] Abbreviation finish := (complete userCallback).

Lemma owedIn_app l l' : owedIn (l ++ l') = owedIn l + owedIn l'.
Proof.
  unfold owedIn. induction l as [|a l IH]; simpl; [reflexivity | rewrite IH; lia].
Qed.

Lemma popsIn_app l l' : popsIn (l ++ l') = (popsIn l + popsIn l')%nat.
Proof. unfold popsIn. rewrite filter_app, length_app. reflexivity. Qed.

Lemma owedIn_nonneg l : 0 <= owedIn l.
Proof.
  unfold owedIn. induction l as [|a l IH]; simpl; [lia|].
  destruct (anim_cb a) as [| ? [|] | |]; simpl; lia.
Qed.

Lemma owedIn_removeAt l :
  forall i a, nth_error l i = Some a ->
              owedIn l = owedBy (anim_cb a) + owedIn (removeAt i l).
Proof.
  unfold owedIn.
  induction l as [|b l IH]; intros [|i] a Ha; simpl in *; try discriminate.
  - injection Ha as ->. reflexivity.
  - rewrite (IH i a Ha). lia.
Qed.

Lemma popsIn_removeAt l :
  forall i a, nth_error l i = Some a ->
              popsIn l = ((if isPopHide a then 1 else 0) + popsIn (removeAt i l))%nat.
Proof.
  unfold popsIn.
  induction l as [|b l IH]; intros [|i] a Ha; simpl in *; try discriminate.
  - injection Ha as ->. destruct (isPopHide a); reflexivity.
  - specialize (IH i a Ha). destruct (isPopHide b), (isPopHide a); simpl in *; lia.
Qed.

(** What [giveFocus] leaves alone. *)
Lemma giveFocus_frame view s :
  viewStack (giveFocus getDefaultFocus view s) = viewStack s
  /\ focusStack (giveFocus getDefaultFocus view s) = focusStack s
  /\ blockInputsTokens (giveFocus getDefaultFocus view s) = blockInputsTokens s
  /\ pending (giveFocus getDefaultFocus view s) = pending s.
Proof.
  unfold giveFocus.
  destruct (negb _); [|repeat split].
  destruct (currentFocus s), (match view with Some v => getDefaultFocus v | None => None end);
    repeat split.
Qed.

Create Rewrite HintDb appfields.

(** How each primitive acts on the stacks, the counter and the running
    animations. *)
Lemma viewStack_emit e s : viewStack (emit e s) = viewStack s.
Proof. reflexivity. Qed.

Lemma focusStack_emit e s : focusStack (emit e s) = focusStack s.
Proof. reflexivity. Qed.

Lemma blockInputsTokens_emit e s : blockInputsTokens (emit e s) = blockInputsTokens s.
Proof. reflexivity. Qed.

Lemma pending_emit e s : pending (emit e s) = pending s.
Proof. reflexivity. Qed.

Lemma viewStack_setForceTranslucent v b s :
  viewStack (setForceTranslucent v b s) = viewStack s.
Proof. reflexivity. Qed.

Lemma focusStack_setForceTranslucent v b s :
  focusStack (setForceTranslucent v b s) = focusStack s.
Proof. reflexivity. Qed.

Lemma blockInputsTokens_setForceTranslucent v b s :
  blockInputsTokens (setForceTranslucent v b s) = blockInputsTokens s.
Proof. reflexivity. Qed.

Lemma pending_setForceTranslucent v b s : pending (setForceTranslucent v b s) = pending s.
Proof. reflexivity. Qed.

Lemma viewStack_setHidden v b s : viewStack (setHidden v b s) = viewStack s.
Proof. reflexivity. Qed.

Lemma focusStack_setHidden v b s : focusStack (setHidden v b s) = focusStack s.
Proof. reflexivity. Qed.

Lemma blockInputsTokens_setHidden v b s :
  blockInputsTokens (setHidden v b s) = blockInputsTokens s.
Proof. reflexivity. Qed.

Lemma pending_setHidden v b s : pending (setHidden v b s) = pending s.
Proof. reflexivity. Qed.

Lemma viewStack_registerAction v k l s : viewStack (registerAction v k l s) = viewStack s.
Proof. reflexivity. Qed.

Lemma focusStack_registerAction v k l s :
  focusStack (registerAction v k l s) = focusStack s.
Proof. reflexivity. Qed.

Lemma blockInputsTokens_registerAction v k l s :
  blockInputsTokens (registerAction v k l s) = blockInputsTokens s.
Proof. reflexivity. Qed.

Lemma pending_registerAction v k l s : pending (registerAction v k l s) = pending s.
Proof. reflexivity. Qed.

Lemma viewStack_blockInputs s : viewStack (blockInputs s) = viewStack s.
Proof. reflexivity. Qed.

Lemma focusStack_blockInputs s : focusStack (blockInputs s) = focusStack s.
Proof. reflexivity. Qed.

Lemma blockInputsTokens_blockInputs s :
  blockInputsTokens (blockInputs s) = blockInputsTokens s + 1.
Proof. reflexivity. Qed.

Lemma pending_blockInputs s : pending (blockInputs s) = pending s.
Proof. reflexivity. Qed.

Lemma viewStack_set_focusStack x s : viewStack (set_focusStack x s) = viewStack s.
Proof. reflexivity. Qed.

Lemma focusStack_set_focusStack x s : focusStack (set_focusStack x s) = x.
Proof. reflexivity. Qed.

Lemma blockInputsTokens_set_focusStack x s :
  blockInputsTokens (set_focusStack x s) = blockInputsTokens s.
Proof. reflexivity. Qed.

Lemma pending_set_focusStack x s : pending (set_focusStack x s) = pending s.
Proof. reflexivity. Qed.

Lemma viewStack_set_viewStack x s : viewStack (set_viewStack x s) = x.
Proof. reflexivity. Qed.

Lemma focusStack_set_viewStack x s : focusStack (set_viewStack x s) = focusStack s.
Proof. reflexivity. Qed.

Lemma blockInputsTokens_set_viewStack x s :
  blockInputsTokens (set_viewStack x s) = blockInputsTokens s.
Proof. reflexivity. Qed.

Lemma pending_set_viewStack x s : pending (set_viewStack x s) = pending s.
Proof. reflexivity. Qed.

Lemma viewStack_set_pending x s : viewStack (set_pending x s) = viewStack s.
Proof. reflexivity. Qed.

Lemma focusStack_set_pending x s : focusStack (set_pending x s) = focusStack s.
Proof. reflexivity. Qed.

Lemma blockInputsTokens_set_pending x s :
  blockInputsTokens (set_pending x s) = blockInputsTokens s.
Proof. reflexivity. Qed.

Lemma pending_set_pending x s : pending (set_pending x s) = x.
Proof. reflexivity. Qed.

Lemma viewStack_show v c a s : viewStack (show v c a s) = viewStack s.
Proof. reflexivity. Qed.
Lemma focusStack_show v c a s : focusStack (show v c a s) = focusStack s.
Proof. reflexivity. Qed.
Lemma blockInputsTokens_show v c a s :
  blockInputsTokens (show v c a s) = blockInputsTokens s.
Proof. reflexivity. Qed.
Lemma pending_show v c a s :
  pending (show v c a s) = pending s ++ [mkAnimation ShowAnim v c a].
Proof. reflexivity. Qed.
Lemma viewStack_hide v c a s : viewStack (hide v c a s) = viewStack s.
Proof. reflexivity. Qed.
Lemma focusStack_hide v c a s : focusStack (hide v c a s) = focusStack s.
Proof. reflexivity. Qed.
Lemma blockInputsTokens_hide v c a s :
  blockInputsTokens (hide v c a s) = blockInputsTokens s.
Proof. reflexivity. Qed.
Lemma pending_hide v c a s :
  pending (hide v c a s) = pending s ++ [mkAnimation HideAnim v c a].
Proof. reflexivity. Qed.
Lemma viewStack_giveFocus v s : viewStack (giveFocus getDefaultFocus v s) = viewStack s.
Proof. apply giveFocus_frame. Qed.
Lemma focusStack_giveFocus v s :
  focusStack (giveFocus getDefaultFocus v s) = focusStack s.
Proof. apply giveFocus_frame. Qed.
Lemma blockInputsTokens_giveFocus v s :
  blockInputsTokens (giveFocus getDefaultFocus v s) = blockInputsTokens s.
Proof. apply giveFocus_frame. Qed.
Lemma pending_giveFocus v s : pending (giveFocus getDefaultFocus v s) = pending s.
Proof. apply giveFocus_frame. Qed.

Hint Rewrite
  viewStack_emit focusStack_emit blockInputsTokens_emit pending_emit
  viewStack_setForceTranslucent focusStack_setForceTranslucent
  blockInputsTokens_setForceTranslucent pending_setForceTranslucent viewStack_setHidden
  focusStack_setHidden blockInputsTokens_setHidden pending_setHidden
  viewStack_registerAction focusStack_registerAction blockInputsTokens_registerAction
  pending_registerAction viewStack_blockInputs focusStack_blockInputs
  blockInputsTokens_blockInputs pending_blockInputs viewStack_set_focusStack
  focusStack_set_focusStack blockInputsTokens_set_focusStack pending_set_focusStack
  viewStack_set_viewStack focusStack_set_viewStack blockInputsTokens_set_viewStack
  pending_set_viewStack viewStack_set_pending focusStack_set_pending
  blockInputsTokens_set_pending pending_set_pending viewStack_show focusStack_show
  blockInputsTokens_show pending_show viewStack_hide focusStack_hide
  blockInputsTokens_hide pending_hide viewStack_giveFocus focusStack_giveFocus
  blockInputsTokens_giveFocus pending_giveFocus
  : appfields.


Lemma back_nonempty {A : Type} (l : list A) :
  (0 < length l)%nat -> exists x, back l = Some x.
Proof.
  intros Hl. unfold back.
  destruct (nth_error l (length l - 1)) as [x|] eqn:Hx; [exists x; reflexivity|].
  apply nth_error_None in Hx. lia.
Qed.

Lemma length_removelast {A : Type} (l : list A) :
  length (removelast l) = (length l - 1)%nat.
Proof.
  destruct (exists_last_or_nil l) as [->|(body & x & ->)]; [reflexivity|].
  rewrite removelast_last, length_app. simpl. lia.
Qed.

(** [pushView], in every branch: the view goes on top of the view stack, the
    current focus is saved when there was a view before, the counter goes up
    by one, and the animations started stand for exactly one decrement. *)
Lemma pushView_effect view animation s :
  viewStack (push view animation s) = viewStack s ++ [view]
  /\ focusStack (push view animation s) =
     (if (0 <? length (viewStack s))%nat then focusStack s ++ [currentFocus s]
      else focusStack s)
  /\ blockInputsTokens (push view animation s) = blockInputsTokens s + 1
  /\ exists started,
       pending (push view animation s) = pending s ++ started
       /\ owedIn started = 1 /\ popsIn started = 0%nat.
Proof.
  unfold pushView.
  set (g := giveFocus getDefaultFocus (getDefaultFocus view)).
  change (viewStack (blockInputs s)) with (viewStack s).
  destruct (0 <? length (viewStack s))%nat eqn:Hsz;
    [destruct (back (viewStack s)) as [l|] eqn:Hback;
     [destruct (negb (isTranslucent (blockInputs s) l)
                && negb (isTranslucent (blockInputs s) view)) eqn:Hfade;
      destruct (isFade animation) eqn:Hwait|]|].
  all: cbn - [g Nat.ltb back]; rewrite ?Hsz; unfold g;
    match goal with
    | |- context [giveFocus getDefaultFocus ?v ?x] =>
        destruct (giveFocus_frame v x) as (-> & -> & -> & ->)
    end; cbn - [Nat.ltb back].
  all: repeat split; try reflexivity.
  all: rewrite <- ?app_assoc; eexists; (split; [reflexivity|]); split; reflexivity.
Qed.

(** [popView] on a stack of more than one view: the view stack is not
    touched yet, the saved focus is taken off, the counter goes up by one,
    and the animations started stand for exactly one decrement and one pop. *)
Lemma popView_effect animation cb s :
  (1 < length (viewStack s))%nat ->
  viewStack (pop animation cb s) = viewStack s
  /\ focusStack (pop animation cb s) = removelast (focusStack s)
  /\ blockInputsTokens (pop animation cb s) = blockInputsTokens s + 1
  /\ exists started,
       pending (pop animation cb s) = pending s ++ started
       /\ owedIn started = 1 /\ popsIn started = 1%nat.
Proof.
  intros Hsz. unfold popView.
  destruct (Nat.leb_spec (length (viewStack s)) 1) as [Hle|_]; [lia|].
  cbv zeta. autorewrite with appfields.
  destruct (back_nonempty (viewStack s)) as [last ->]; [lia|].
  autorewrite with appfields.
  assert (H1 : (1 <? length (viewStack s))%nat = true) by (apply Nat.ltb_lt; lia).
  rewrite H1.
  destruct (nth_error (viewStack s) (length (viewStack s) - 2)) as [toShow|] eqn:HtoShow;
    [|apply nth_error_None in HtoShow; lia].
  destruct (isFade animation) eqn:Hwait; cbn [negb andb]; autorewrite with appfields.
  all: destruct (0 <? length (focusStack s))%nat eqn:Hfs.
  all: try (destruct (back_nonempty (focusStack s)) as [newFocus ->];
         [apply Nat.ltb_lt; assumption|]).
  all: autorewrite with appfields.
  all: try (assert (Hnil : removelast (focusStack s) = focusStack s)
        by (destruct (focusStack s); [reflexivity | discriminate]); rewrite Hnil).
  all: repeat split; try reflexivity.
  all: rewrite <- ?app_assoc; eexists; (split; [reflexivity|]); split; reflexivity.
Qed.

Lemma tokens_balance s : blockInputsTokens s = balance s + owed s.
Proof. unfold balance. lia. Qed.

Lemma owed_nonneg s : 0 <= owed s.
Proof. apply owedIn_nonneg. Qed.

Lemma show_measures v c animation s :
  balance (show v c animation s) = balance s - owedBy c
  /\ slack (show v c animation s) =
     slack s - Z.of_nat (if isPopHide (mkAnimation ShowAnim v c animation) then 1 else 0).
Proof.
  unfold balance, slack, owed, popsInFlight. cbn - [isPopHide owedIn popsIn].
  rewrite owedIn_app, popsIn_app. unfold owedIn at 2, popsIn at 2. cbn.
  destruct c; cbn; lia.
Qed.

Lemma unblockInputs_measures s :
  1 <= balance s ->
  balance (unblockInputs s) = balance s - 1 /\ slack (unblockInputs s) = slack s.
Proof.
  intros Hb. pose proof (owed_nonneg s) as Ho. pose proof (tokens_balance s) as Ht.
  unfold unblockInputs.
  destruct (Z.gtb_spec (blockInputsTokens s) 0) as [_|Hle]; [|lia].
  unfold balance, slack, owed, popsInFlight in *. cbn - [owedIn popsIn]. lia.
Qed.

Lemma slack_bound s : slack s <= Z.of_nat (length (viewStack s)).
Proof. unfold slack. lia. Qed.

(** A completion callback, run once its animation has left the engine, takes
    off the counter exactly what it stood for. *)
Lemma runCallback_balance a s :
  owedBy (anim_cb a) <= balance s ->
  inRange a s ->
  balance (runCallback userCallback (anim_cb a) s) = balance s - owedBy (anim_cb a).
Proof.
  intros Hb Hr. unfold inRange in Hr.
  destruct (anim_cb a) as [|animation wait|last animation wait cb|cb];
    cbn [runCallback owedBy] in *.
  - destruct (unblockInputs_measures s) as [-> _]; [lia | reflexivity].
  - destruct (back_nonempty (viewStack s)) as [newLast ->].
    { destruct (viewStack s); [congruence | simpl; lia]. }
    destruct wait.
    + destruct (show_measures newLast UnblockInputs animation
                  (setForceTranslucent newLast false s)) as [-> _].
      change (balance (setForceTranslucent newLast false s)) with (balance s).
      cbn [owedBy]. lia.
    + change (balance (setForceTranslucent newLast false s)) with (balance s). lia.
  - set (s1 := emit (EvDelete (vid last))
                 (set_viewStack (removelast (viewStack (setForceTranslucent last false s)))
                    (setForceTranslucent last false s))).
    assert (Hb1 : balance s1 = balance s) by reflexivity.
    match goal with
    | |- context [unblockInputs ?x] => set (s2 := x)
    end.
    assert (Hb2 : balance s2 = balance s).
    { subst s2. destruct ((0 <? length (viewStack s1))%nat && wait); [|assumption].
      destruct (back (viewStack s1)) as [newLast|]; [|assumption].
      destruct (isHidden s1 newLast).
      - destruct (show_measures newLast (UserCallback cb) animation
                    (emit (EvWillAppear (vid newLast) false) s1)) as [-> _].
        change (balance (emit (EvWillAppear (vid newLast) false) s1)) with (balance s1).
        cbn [owedBy]. lia.
      - rewrite (userCallback_keepsBalance cb s1). assumption. }
    destruct (unblockInputs_measures s2) as [-> _]; lia.
  - rewrite (userCallback_keepsBalance cb s). lia.
Qed.

Lemma move_balance c s s' :
  0 <= c -> balance s = c ->
  move getDefaultFocus userCallback Key_PLUS Key_MINUS s s' ->
  balance s' = c.
Proof.
  intros Hc Hb Hm.
  destruct Hm as [view animation s|animation cb s|i a s Ha Hr].
  - destruct (pushView_effect view animation s) as (_ & _ & Ht & started & Hp & Ho & _).
    unfold balance, owed in *. rewrite Ht, Hp, owedIn_app, Ho. lia.
  - destruct (Nat.leb_spec (length (viewStack s)) 1) as [Hle|Hgt].
    + rewrite popView_unchanged by assumption. assumption.
    + destruct (popView_effect animation cb s Hgt) as (_ & _ & Ht & started & Hp & Ho & _).
      unfold balance, owed in *. rewrite Ht, Hp, owedIn_app, Ho. lia.
  - unfold complete. rewrite Ha.
    set (s1 := set_pending (removeAt i (pending s)) s).
    pose proof (owedIn_removeAt _ _ _ Ha) as Hoa.
    pose proof (owedIn_nonneg (removeAt i (pending s))) as Hnn.
    assert (Hb1 : balance s1 = c + owedBy (anim_cb a)).
    { unfold balance, owed in *. subst s1. cbn. lia. }
    rewrite (runCallback_balance a s1); [lia | lia | exact Hr].
Qed.

Lemma runs_balance s0 s :
  0 <= balance s0 ->
  runs getDefaultFocus userCallback Key_PLUS Key_MINUS s0 s ->
  balance s = balance s0.
Proof.
  intros H0 Hr. induction Hr as [|s s' _ IH Hm]; [reflexivity|].
  apply (move_balance (balance s0) s s'); assumption.
Qed.

Lemma unblockInputs_slack s : slack (unblockInputs s) = slack s.
Proof. unfold unblockInputs. destruct (blockInputsTokens s >? 0); reflexivity. Qed.

Lemma runCallback_slack a s :
  slack s = 1 + Z.of_nat (if isPopHide a then 1 else 0) ->
  slack (runCallback userCallback (anim_cb a) s) = 1.
Proof.
  intros Hs. pose proof (slack_bound s) as Hbound.
  unfold isPopHide in Hs.
  destruct (anim_cb a) as [|animation wait|last animation wait cb|cb];
    cbn [runCallback] in *.
  - rewrite unblockInputs_slack. lia.
  - destruct (back (viewStack s)) as [newLast|]; [|lia].
    destruct wait; [|exact Hs].
    destruct (show_measures newLast UnblockInputs animation
                (setForceTranslucent newLast false s)) as [_ ->].
    change (slack (setForceTranslucent newLast false s)) with (slack s).
    cbn [isPopHide anim_cb]. lia.
  - rewrite unblockInputs_slack.
    set (s1 := emit (EvDelete (vid last))
                 (set_viewStack (removelast (viewStack (setForceTranslucent last false s)))
                    (setForceTranslucent last false s))).
    assert (Hs1 : slack s1 = 1).
    { unfold slack, popsInFlight in *. subst s1. cbn - [removelast] in *.
      rewrite length_removelast. lia. }
    destruct ((0 <? length (viewStack s1))%nat && wait); [|assumption].
    destruct (back (viewStack s1)) as [newLast|]; [|assumption].
    destruct (isHidden s1 newLast).
    + destruct (show_measures newLast (UserCallback cb) animation
                  (emit (EvWillAppear (vid newLast) false) s1)) as [_ ->].
      change (slack (emit (EvWillAppear (vid newLast) false) s1)) with (slack s1).
      cbn [isPopHide anim_cb]. lia.
    + rewrite (userCallback_keepsSlack cb s1). assumption.
  - rewrite (userCallback_keepsSlack cb s). lia.
Qed.

Lemma transition_slack s s' :
  slack s = 1 ->
  transition getDefaultFocus userCallback Key_PLUS Key_MINUS s s' ->
  slack s' = 1.
Proof.
  intros Hs Ht. pose proof (slack_bound s) as Hbound.
  destruct Ht as [view animation s|animation cb s Hflight|i a s Ha].
  - destruct (pushView_effect view animation s) as (Hv & Hf & _ & started & Hp & _ & Hn).
    assert (Hsz : (0 <? length (viewStack s))%nat = true) by (apply Nat.ltb_lt; lia).
    rewrite Hsz in Hf.
    unfold slack, popsInFlight in *.
    rewrite Hv, Hf, Hp, popsIn_app, !length_app, Hn. cbn [length]. lia.
  - destruct (Nat.leb_spec (length (viewStack s)) 1) as [Hle|Hgt].
    + rewrite popView_unchanged by assumption. assumption.
    + destruct (popView_effect animation cb s Hgt) as (Hv & Hf & _ & started & Hp & _ & Hn).
      unfold slack, popsInFlight in *.
      rewrite Hv, Hf, Hp, popsIn_app, length_removelast, Hn. lia.
  - unfold complete. rewrite Ha.
    pose proof (popsIn_removeAt _ _ _ Ha) as Hpa.
    apply runCallback_slack.
    unfold slack, popsInFlight in *. cbn. lia.
Qed.

Lemma reaches_slack s0 s :
  slack s0 = 1 ->
  reaches getDefaultFocus userCallback Key_PLUS Key_MINUS s0 s ->
  slack s = 1.
Proof.
  intros H0 Hr. induction Hr as [|s s' _ IH Ht]; [assumption|].
  apply (transition_slack s s'); assumption.
Qed.

(** With the stacks in step, a run whose pops do not overlap never takes a
    completion callback out of range. *)
Lemma reaches_runs s0 s :
  slack s0 = 1 ->
  reaches getDefaultFocus userCallback Key_PLUS Key_MINUS s0 s ->
  runs getDefaultFocus userCallback Key_PLUS Key_MINUS s0 s.
Proof.
  intros H0 Hr. induction Hr as [|s s' Hr IH Ht]; [apply runs_here|].
  apply runs_next with (s := s); [assumption|].
  pose proof (reaches_slack s0 s H0 Hr) as Hs.
  destruct Ht as [view animation s|animation cb s Hflight|i a s Ha].
  - apply move_push.
  - apply move_pop.
  - apply move_complete with (a := a); [assumption|].
    pose proof (popsIn_removeAt _ _ _ Ha) as Hpa.
    unfold inRange, slack, popsInFlight, isPopHide in *.
    destruct (anim_cb a); try exact I; intros Hnil; rewrite Hnil in Hs; cbn in Hs; lia.
Qed.


Lemma reaches_trans s0 s s' :
  reaches getDefaultFocus userCallback Key_PLUS Key_MINUS s0 s ->
  reaches getDefaultFocus userCallback Key_PLUS Key_MINUS s s' ->
  reaches getDefaultFocus userCallback Key_PLUS Key_MINUS s0 s'.
Proof.
  intros H1 H2. induction H2 as [|s1 s2 _ IH Ht]; [assumption|].
  apply reaches_next with (s := s1); assumption.
Qed.

Lemma settles_reaches s s' :
  settles userCallback s s' ->
  reaches getDefaultFocus userCallback Key_PLUS Key_MINUS s s' /\ pending s' = [].
Proof.
  induction 1 as [s Hnone|i a s s' Ha _ [IH Hnone]].
  - split; [apply reaches_here | assumption].
  - split; [|assumption].
    apply reaches_trans with (s := finish i s); [|assumption].
    apply reaches_next with (s := s); [apply reaches_here|].
    apply transition_complete with (a := a). assumption.
Qed.

Lemma completedRun_reaches ops s0 s :
  pending s0 = [] ->
  completedRun getDefaultFocus userCallback Key_PLUS Key_MINUS ops s0 s ->
  reaches getDefaultFocus userCallback Key_PLUS Key_MINUS s0 s /\ pending s = [].
Proof.
  intros H0 Hrun. induction Hrun as [s|op ops s s1 s2 Hset _ IH].
  - split; [apply reaches_here | assumption].
  - destruct (settles_reaches _ _ Hset) as [Hr1 Hn1].
    destruct (IH Hn1) as [Hr2 Hn2].
    split; [|assumption].
    apply reaches_trans with (s := s1); [|assumption].
    apply reaches_trans with (s := perform getDefaultFocus Key_PLUS Key_MINUS op s);
      [|assumption].
    apply reaches_next with (s := s); [apply reaches_here|].
    destruct op as [view animation|animation cb]; cbn [perform].
    + apply transition_push.
    + apply transition_pop. unfold popsInFlight. rewrite H0. reflexivity.
Qed.

Lemma settle_settles fuel :
  forall s s', settle userCallback fuel s = Some s' -> settles userCallback s s'.
Proof.
  induction fuel as [|fuel IH]; intros s s' Hs; cbn [settle] in Hs.
  - destruct (pending s) eqn:Hp; [|discriminate].
    injection Hs as <-. apply settles_done. assumption.
  - destruct (pending s) as [|a l] eqn:Hp.
    + injection Hs as <-. apply settles_done. assumption.
    + apply settles_next with (i := 0%nat) (a := a); [rewrite Hp; reflexivity|].
      apply IH. assumption.
Qed.

Lemma performAll_completedRun fuel ops :
  forall s s',
    performAll getDefaultFocus userCallback Key_PLUS Key_MINUS fuel ops s = Some s' ->
    completedRun getDefaultFocus userCallback Key_PLUS Key_MINUS ops s s'.
Proof.
  induction ops as [|op ops IH]; intros s s' Hs; cbn [performAll] in Hs.
  - injection Hs as <-. apply completedRun_nil.
  - destruct (settle userCallback fuel (perform getDefaultFocus Key_PLUS Key_MINUS op s))
      as [s1|] eqn:Hset; [|discriminate].
    apply completedRun_cons with (s1 := s1); [|apply IH; assumption].
    apply (settle_settles fuel). assumption.
Qed.

(** The two stacks in step along a run whose pops do not overlap, and what a
    push and a pop do to them. *)
Lemma stacks_in_step (s0 s : App) :
  length (viewStack s0) = S (length (focusStack s0) + popsInFlight s0) ->
  reaches getDefaultFocus userCallback Key_PLUS Key_MINUS s0 s ->
  length (viewStack s) = S (length (focusStack s) + popsInFlight s)
  /\ (forall view animation,
        viewStack (push view animation s) = viewStack s ++ [view]
        /\ focusStack (push view animation s) = focusStack s ++ [currentFocus s])
  /\ (forall animation cb,
        popsInFlight s = 0%nat ->
        viewStack (pop animation cb s) = viewStack s
        /\ focusStack (pop animation cb s) =
           (if (length (viewStack s) <=? 1)%nat then focusStack s
            else removelast (focusStack s))
        /\ (length (focusStack (pop animation cb s))
            + (if (length (viewStack s) <=? 1)%nat then 0 else 1)
            = length (focusStack s))%nat).
Proof.
  intros H0 Hr.
  assert (Hsl : slack s = 1).
  { apply (reaches_slack s0); [|assumption]. unfold slack. lia. }
  assert (Hlen : length (viewStack s) = S (length (focusStack s) + popsInFlight s)).
  { unfold slack in Hsl. lia. }
  split; [assumption|].
  split.
  { intros view animation.
    destruct (pushView_effect view animation s) as (Hv & Hf & _).
    split; [assumption|]. rewrite Hf.
    destruct (Nat.ltb_spec 0 (length (viewStack s))); [reflexivity | lia]. }
  intros animation cb Hflight.
  destruct (Nat.leb_spec (length (viewStack s)) 1) as [Hle|Hgt].
  - rewrite popView_unchanged by assumption. repeat split. lia.
  - destruct (popView_effect animation cb s Hgt) as (Hv & Hf & _).
    repeat split; try assumption. rewrite Hf, length_removelast. lia.
Qed.


End Transitions.

End Properties.

(** * The button scan *)

Section ButtonRepeat.

Variable MaxButtons : nat.

Open Scope Z_scope.

Lemma isDown_zero i : isDown 0 i = false.
Proof. unfold isDown. rewrite Z.land_0_l. reflexivity. Qed.

Lemma existsb_filter {A : Type} (f : A -> bool) (l : list A) :
  existsb f l = match filter f l with [] => false | _ :: _ => true end.
Proof.
  induction l as [|x l IH]; simpl; [reflexivity|].
  destruct (f x); simpl; [reflexivity | assumption].
Qed.

Lemma filter_nil_all {A : Type} (f : A -> bool) (l : list A) :
  filter f l = [] -> forall x, In x l -> f x = false.
Proof.
  induction l as [|y l IH]; simpl; intros Hnil x Hx; [contradiction|].
  destruct (f y) eqn:Hy; [discriminate|].
  destruct Hx as [->|Hx]; [assumption | apply IH; assumption].
Qed.

Lemma repeatDue_zero : repeatDue 0 = false.
Proof. reflexivity. Qed.

Lemma in_range_spec a n i :
  (a <=? i)%nat && (i <? a + n)%nat = true <-> (a <= i < a + n)%nat.
Proof.
  rewrite andb_true_iff, Nat.leb_le, Nat.ltb_lt. reflexivity.
Qed.

Lemma in_range_step a n i :
  (a <=? i)%nat && (i <? a + S n)%nat
  = Nat.eqb i a || ((S a <=? i)%nat && (i <? S a + n)%nat).
Proof.
  destruct (Nat.eqb_spec i a) as [->|Hne]; cbn [orb].
  - apply in_range_spec. lia.
  - destruct ((S a <=? i)%nat && (i <? S a + n)%nat) eqn:E.
    + apply in_range_spec in E. apply in_range_spec. lia.
    + destruct ((a <=? i)%nat && (i <? a + S n)%nat) eqn:E'; [|reflexivity].
      apply in_range_spec in E'.
      assert (E2 : (S a <=? i)%nat && (i <? S a + n)%nat = true)
        by (apply in_range_spec; lia).
      congruence.
Qed.

(** The scan over buttons none of which changes status. *)
Lemma scan_hold (held : Z) :
  forall n a (sc : Scan (list Press)),
    (forall i, (a <= i < a + n)%nat -> buttons (statics sc) i = isDown held i) ->
    let sc' := fold_left (scanButton record held) (seq a n) sc in
    anyButtonPressed sc' = anyButtonPressed sc || existsb (isDown held) (seq a n)
    /\ handled sc'
       = handled sc
         ++ (if repeatDue (repeatingButtonTimer (statics sc))
             then pressesFor true (filter (isDown held) (seq a n)) else [])
    /\ repeatingButtonTimer (statics sc') = repeatingButtonTimer (statics sc)
    /\ buttonPressTime (statics sc') = buttonPressTime (statics sc)
    /\ (forall i, buttons (statics sc') i = buttons (statics sc) i).
Proof.
  induction n as [|n IH]; intros a sc Hb; cbn [seq fold_left existsb filter].
  - rewrite orb_false_r. unfold pressesFor. cbn [map].
    destruct (repeatDue _); rewrite app_nil_r; repeat split.
  - assert (Ha : buttons (statics sc) a = isDown held a) by (apply Hb; lia).
    set (sc1 := scanButton record held sc a).
    assert (H1 : anyButtonPressed sc1 = anyButtonPressed sc || isDown held a
                 /\ handled sc1
                    = handled sc
                      ++ (if isDown held a && repeatDue (repeatingButtonTimer (statics sc))
                          then [(buttonMask a, true)] else [])
                 /\ repeatingButtonTimer (statics sc1) = repeatingButtonTimer (statics sc)
                 /\ buttonPressTime (statics sc1) = buttonPressTime (statics sc)
                 /\ (forall i, buttons (statics sc1) i = buttons (statics sc) i)).
    { subst sc1. unfold scanButton. rewrite Ha, xorb_nilpotent.
      change ((repeatingButtonTimer (statics sc) >? BUTTON_REPEAT_DELAY)
              && (Z.rem (repeatingButtonTimer (statics sc)) BUTTON_REPEAT_CADENCY =? 0))
        with (repeatDue (repeatingButtonTimer (statics sc))).
      assert (Hset : forall d, d = isDown held a ->
                forall i, buttons (setButton a d (statics sc)) i = buttons (statics sc) i).
      { intros d -> i. cbn. destruct (Nat.eqb_spec i a) as [->|]; [|reflexivity].
        symmetry. assumption. }
      destruct (isDown held a) eqn:Hd; cbn [orb andb].
      - destruct (repeatDue (repeatingButtonTimer (statics sc))); cbn [anyButtonPressed
          handled statics]; rewrite ?orb_true_r, ?app_nil_r; repeat split;
          apply Hset; reflexivity.
      - cbn [anyButtonPressed handled statics]. rewrite orb_false_r, app_nil_r.
        repeat split. apply Hset. reflexivity. }
    destruct H1 as (A1 & A2 & A3 & A4 & A5).
    destruct (IH (S a) sc1) as (I1 & I2 & I3 & I4 & I5).
    { intros i Hi. rewrite A5. apply Hb. lia. }
    cbn zeta in I1, I2, I3, I4, I5.
    rewrite I1, I2, I3, I4, A1, A2, A3, A4. rewrite <- orb_assoc, <- app_assoc.
    repeat split.
    + f_equal. unfold pressesFor.
      destruct (isDown held a), (repeatDue (repeatingButtonTimer (statics sc)));
        reflexivity.
    + intros i. rewrite I5. apply A5.
Qed.

(** The scan from rest: every button found down changes status. *)
Lemma scan_press (held : Z) :
  forall n a (sc : Scan (list Press)),
    (forall i, (a <= i < a + n)%nat -> buttons (statics sc) i = false) ->
    repeatingButtonTimer (statics sc) = 0 ->
    let sc' := fold_left (scanButton record held) (seq a n) sc in
    anyButtonPressed sc' = anyButtonPressed sc || existsb (isDown held) (seq a n)
    /\ handled sc' = handled sc ++ pressesFor false (filter (isDown held) (seq a n))
    /\ repeatingButtonTimer (statics sc') = 0
    /\ buttonPressTime (statics sc')
       = (if existsb (isDown held) (seq a n) then 0 else buttonPressTime (statics sc))
    /\ (forall i, buttons (statics sc') i
                  = if (a <=? i)%nat && (i <? a + n)%nat then isDown held i
                    else buttons (statics sc) i).
Proof.
  induction n as [|n IH]; intros a sc Hb Ht; cbn [seq fold_left existsb filter].
  - rewrite orb_false_r. unfold pressesFor. cbn [map]. rewrite app_nil_r.
    repeat split; [assumption|].
    intros i. destruct ((a <=? i)%nat && (i <? a + 0)%nat) eqn:E; [|reflexivity].
    apply in_range_spec in E. lia.
  - assert (Ha : buttons (statics sc) a = false) by (apply Hb; lia).
    set (sc1 := scanButton record held sc a).
    assert (H1 : anyButtonPressed sc1 = anyButtonPressed sc || isDown held a
                 /\ handled sc1
                    = handled sc ++ (if isDown held a then [(buttonMask a, false)] else [])
                 /\ repeatingButtonTimer (statics sc1) = 0
                 /\ buttonPressTime (statics sc1)
                    = (if isDown held a then 0 else buttonPressTime (statics sc))
                 /\ (forall i, buttons (statics sc1) i
                               = if Nat.eqb i a then isDown held a
                                 else buttons (statics sc) i)).
    { subst sc1. unfold scanButton. rewrite Ha, Ht, xorb_false_l.
      change ((0 >? BUTTON_REPEAT_DELAY) && (Z.rem 0 BUTTON_REPEAT_CADENCY =? 0))
        with false.
      destruct (isDown held a); cbn [orb anyButtonPressed handled statics
                                     repeatingButtonTimer buttonPressTime].
      - rewrite orb_true_r. repeat split.
      - rewrite orb_false_r, app_nil_r. repeat split. assumption. }
    destruct H1 as (A1 & A2 & A3 & A4 & A5).
    destruct (IH (S a) sc1) as (I1 & I2 & I3 & I4 & I5).
    { intros i Hi. rewrite A5. destruct (Nat.eqb_spec i a) as [->|]; [lia|].
      apply Hb. lia. }
    { assumption. }
    cbn zeta in I1, I2, I3, I4, I5.
    rewrite I1, I2, I3, I4, A1, A2, A4. rewrite <- orb_assoc, <- app_assoc.
    repeat split.
    + f_equal. unfold pressesFor. destruct (isDown held a); reflexivity.
    + destruct (isDown held a); cbn [orb]; [|reflexivity].
      destruct (existsb (isDown held) (seq (S a) n)); reflexivity.
    + intros i. rewrite I5, A5, in_range_step.
      destruct (Nat.eqb_spec i a) as [->|Hne]; cbn [orb]; [|reflexivity].
      destruct ((S a <=? a)%nat && (a <? S a + n)%nat) eqn:E; [|reflexivity].
      apply in_range_spec in E. lia.
Qed.

(** The scan with no button down, over buttons whose last status is [was]. *)
Lemma scan_release (was : nat -> bool) :
  forall n a (sc : Scan (list Press)),
    (forall i, (a <= i < a + n)%nat -> buttons (statics sc) i = was i) ->
    let sc' := fold_left (scanButton record 0) (seq a n) sc in
    anyButtonPressed sc' = anyButtonPressed sc
    /\ handled sc' = handled sc
    /\ repeatingButtonTimer (statics sc')
       = (if existsb was (seq a n) then 0 else repeatingButtonTimer (statics sc))
    /\ (forall i, buttons (statics sc') i
                  = if (a <=? i)%nat && (i <? a + n)%nat then false
                    else buttons (statics sc) i).
Proof.
  induction n as [|n IH]; intros a sc Hb; cbn [seq fold_left existsb].
  - repeat split.
    intros i. destruct ((a <=? i)%nat && (i <? a + 0)%nat) eqn:E; [|reflexivity].
    apply in_range_spec in E. lia.
  - assert (Ha : buttons (statics sc) a = was a) by (apply Hb; lia).
    set (sc1 := scanButton record 0 sc a).
    assert (H1 : anyButtonPressed sc1 = anyButtonPressed sc
                 /\ handled sc1 = handled sc
                 /\ repeatingButtonTimer (statics sc1)
                    = (if was a then 0 else repeatingButtonTimer (statics sc))
                 /\ (forall i, buttons (statics sc1) i
                               = if Nat.eqb i a then false else buttons (statics sc) i)).
    { subst sc1. unfold scanButton. rewrite isDown_zero, Ha, xorb_false_r.
      destruct (was a); repeat split. }
    destruct H1 as (A1 & A2 & A3 & A5).
    destruct (IH (S a) sc1) as (I1 & I2 & I3 & I5).
    { intros i Hi. rewrite A5. destruct (Nat.eqb_spec i a) as [->|]; [lia|].
      apply Hb. lia. }
    cbn zeta in I1, I2, I3, I5.
    rewrite I1, I2, I3, A1, A2, A3.
    repeat split.
    + destruct (was a); cbn [orb]; [|reflexivity].
      destruct (existsb was (seq (S a) n)); reflexivity.
    + intros i. rewrite I5, A5, in_range_step.
      destruct (Nat.eqb_spec i a) as [->|Hne]; cbn [orb]; [|reflexivity].
      destruct ((S a <=? a)%nat && (a <? S a + n)%nat); reflexivity.
Qed.

Lemma replay_app {H : Type} (onPressed : Z -> bool -> H -> H) l l' h :
  replay onPressed (l ++ l') h = replay onPressed l' (replay onPressed l h).
Proof. unfold replay. apply fold_left_app. Qed.

Lemma replay_record l log : replay record l log = log ++ l.
Proof.
  revert log. induction l as [|p l IH]; intros log; cbn.
  - rewrite app_nil_r. reflexivity.
  - unfold replay in IH. rewrite IH. unfold record. rewrite <- app_assoc.
    destruct p. reflexivity.
Qed.

(** The scan does not depend on what the handler does: whatever the handler,
    it leaves the same statics, and the handler has been given the same
    presses in the same order. *)
Lemma scanButton_replay (held : Z) (pressed : bool) (st : InputStatics) (i : nat) :
  exists pressed' st' new,
    forall (H : Type) (onPressed : Z -> bool -> H -> H) (h : H),
      scanButton onPressed held (mkScan pressed st h) i
      = mkScan pressed' st' (replay onPressed new h).
Proof.
  unfold scanButton. cbn [statics anyButtonPressed handled].
  destruct (isDown held i).
  - destruct (xorb (buttons st i) true
              || (repeatingButtonTimer st >? BUTTON_REPEAT_DELAY)
                 && (Z.rem (repeatingButtonTimer st) BUTTON_REPEAT_CADENCY =? 0)) eqn:E.
    + eexists _, _, [(_, _)]. intros H onPressed h. cbn. reflexivity.
    + eexists _, _, []. intros H onPressed h. cbn. reflexivity.
  - eexists _, _, []. intros H onPressed h. cbn. reflexivity.
Qed.

Lemma scan_replay (held : Z) (l : list nat) :
  forall (pressed : bool) (st : InputStatics),
  exists pressed' st' new,
    forall (H : Type) (onPressed : Z -> bool -> H -> H) (h : H),
      fold_left (scanButton onPressed held) l (mkScan pressed st h)
      = mkScan pressed' st' (replay onPressed new h).
Proof.
  induction l as [|i l IH]; intros pressed st; cbn [fold_left].
  - exists pressed, st, []. intros. reflexivity.
  - destruct (scanButton_replay held pressed st i) as (p1 & st1 & new1 & H1).
    destruct (IH p1 st1) as (p2 & st2 & new2 & H2).
    exists p2, st2, (new1 ++ new2). intros H onPressed h.
    rewrite H1, H2, replay_app. reflexivity.
Qed.

Lemma pollButtons_replay {H : Type} (onPressed : Z -> bool -> H -> H)
    (t : Tick) (st : InputStatics) (h : H) :
  pollButtons MaxButtons onPressed t st h
  = (nextStatics MaxButtons t st, replay onPressed (presses MaxButtons t st) h).
Proof.
  unfold presses, nextStatics, pollButtons.
  destruct (scan_replay (kDown t) (seq 0 MaxButtons) false st) as (p' & st' & new & Hscan).
  rewrite (Hscan H onPressed h), (Hscan _ record []), replay_record.
  cbn [anyButtonPressed statics handled app].
  destruct (p' && _); reflexivity.
Qed.

(** In [mainLoop] the recorded presses are the calls of
    [Application::onGamepadButtonPressed], in order. *)
Lemma mainLoop_gamepad_presses getNextFocus getDefaultFocus userListener
    KEY_DDOWN KEY_DUP KEY_DLEFT KEY_DRIGHT (t : Tick) (st : InputStatics) (s : App) :
  mainLoop_gamepad getNextFocus getDefaultFocus userListener
    KEY_DDOWN KEY_DUP KEY_DLEFT KEY_DRIGHT MaxButtons t st s
  = (nextStatics MaxButtons t st,
     replay (onGamepadButtonPressed getNextFocus getDefaultFocus userListener
               KEY_DDOWN KEY_DUP KEY_DLEFT KEY_DRIGHT)
            (presses MaxButtons t st) s).
Proof. unfold mainLoop_gamepad. apply pollButtons_replay. Qed.

Lemma pressesOfTicks_app ts ts' st :
  pressesOfTicks MaxButtons (ts ++ ts') st =
  pressesOfTicks MaxButtons ts st
  ++ pressesOfTicks MaxButtons ts' (staticsAfter MaxButtons ts st).
Proof.
  revert st. induction ts as [|t ts IH]; intros st; cbn; [reflexivity|].
  rewrite IH. reflexivity.
Qed.

Lemma expectedPresses_none held k :
  downs MaxButtons held = [] -> expectedPresses MaxButtons held k = [].
Proof.
  intros Hnil. unfold expectedPresses. rewrite Hnil.
  destruct (Nat.eqb k 0); [reflexivity|]. destruct (repeatDue _); reflexivity.
Qed.

Lemma downs_some held :
  downs MaxButtons held <> [] -> existsb (isDown held) (seq 0 MaxButtons) = true.
Proof.
  intros Hne. rewrite existsb_filter. fold (downs MaxButtons held).
  destruct (downs MaxButtons held); [congruence | reflexivity].
Qed.

Lemma downs_none held :
  downs MaxButtons held = [] -> existsb (isDown held) (seq 0 MaxButtons) = false.
Proof.
  intros Hnil. rewrite existsb_filter. fold (downs MaxButtons held).
  rewrite Hnil. reflexivity.
Qed.

(** The first call of [mainLoop] that finds the buttons down. *)
Lemma press_tick (held : Z) (t : Tick) (st : InputStatics) :
  released st -> holds held t -> downs MaxButtons held <> [] ->
  timeCompared t - 0 > 1000 ->
  presses MaxButtons t st = expectedPresses MaxButtons held 0
  /\ holding MaxButtons held 1 (timeStored t) (nextStatics MaxButtons t st).
Proof.
  intros [Hup Htimer] Hholds Hsome Hclock.
  unfold presses, nextStatics, pollButtons. unfold holds in Hholds. rewrite Hholds.
  destruct (scan_press held MaxButtons 0%nat (mkScan false st []))
    as (S1 & S2 & S3 & S4 & S5); [intros i _; apply Hup | assumption|].
  cbn zeta in S1, S2, S3, S4, S5. cbn [anyButtonPressed handled statics] in *.
  rewrite (downs_some held Hsome) in S1, S4.
  rewrite S1, S4. cbn [orb andb].
  assert (Hgt : (timeCompared t - 0 >? 1000) = true) by (apply Z.gtb_lt; lia).
  rewrite Hgt. cbn [fst snd].
  split; [rewrite S2; reflexivity|].
  unfold holding. cbn [buttons repeatingButtonTimer buttonPressTime].
  split; [|split; [rewrite S3; reflexivity | reflexivity]].
  intros i. rewrite S5, Hup. cbn [Nat.leb Nat.add].
  destruct (i <? MaxButtons)%nat; reflexivity.
Qed.

(** A later call that finds the same buttons down. *)
Lemma hold_tick (held : Z) (k : nat) (stored : Z) (t : Tick) (st : InputStatics) :
  (1 <= k)%nat -> holding MaxButtons held k stored st -> holds held t ->
  downs MaxButtons held <> [] ->
  timeCompared t - stored > 1000 ->
  presses MaxButtons t st = expectedPresses MaxButtons held k
  /\ holding MaxButtons held (S k) (timeStored t) (nextStatics MaxButtons t st).
Proof.
  intros Hk (Hb & Htimer & Hstored) Hholds Hsome Hclock.
  unfold presses, nextStatics, pollButtons. unfold holds in Hholds. rewrite Hholds.
  destruct (scan_hold held MaxButtons 0%nat (mkScan false st []))
    as (S1 & S2 & S3 & S4 & S5).
  { intros i Hi. cbn [statics]. rewrite Hb.
    destruct (Nat.ltb_spec i MaxButtons); [reflexivity | lia]. }
  cbn zeta in S1, S2, S3, S4, S5. cbn [anyButtonPressed handled statics] in *.
  rewrite (downs_some held Hsome) in S1.
  rewrite S1, S4, Hstored. cbn [orb andb].
  assert (Hgt : (timeCompared t - stored >? 1000) = true) by (apply Z.gtb_lt; lia).
  rewrite Hgt. cbn [fst snd].
  split.
  - rewrite S2, Htimer. unfold expectedPresses.
    destruct (Nat.eqb_spec k 0) as [E|_]; [lia|]. reflexivity.
  - unfold holding. cbn [buttons repeatingButtonTimer buttonPressTime].
    split; [intros i; rewrite S5; apply Hb|].
    split; [rewrite S3, Htimer; lia | reflexivity].
Qed.

(** A call that finds no button down, none having been down before. *)
Lemma quiet_tick (t : Tick) (st : InputStatics) :
  released st -> downs MaxButtons (kDown t) = [] ->
  presses MaxButtons t st = [] /\ released (nextStatics MaxButtons t st).
Proof.
  intros [Hup Htimer] Hnone.
  unfold presses, nextStatics, pollButtons.
  destruct (scan_press (kDown t) MaxButtons 0%nat (mkScan false st []))
    as (S1 & S2 & S3 & S4 & S5); [intros i _; apply Hup | assumption|].
  cbn zeta in S1, S2, S3, S4, S5. cbn [anyButtonPressed handled statics] in *.
  rewrite (downs_none _ Hnone) in S1.
  fold (downs MaxButtons (kDown t)) in S2. rewrite Hnone in S2.
  rewrite S1. cbn [orb andb fst snd].
  split; [assumption|]. split; [|assumption].
  intros i. rewrite S5, Hup.
  destruct ((0 <=? i)%nat && (i <? 0 + MaxButtons)%nat) eqn:E; [|reflexivity].
  apply in_range_spec in E.
  apply (filter_nil_all _ _ Hnone). apply in_seq. lia.
Qed.

(** A call that finds the buttons released. *)
Lemma release_tick (held : Z) (k : nat) (stored : Z) (t : Tick) (st : InputStatics) :
  holding MaxButtons held k stored st -> downs MaxButtons held <> [] ->
  idle t ->
  presses MaxButtons t st = [] /\ released (nextStatics MaxButtons t st).
Proof.
  intros (Hb & Htimer & Hstored) Hsome Hidle.
  unfold presses, nextStatics, pollButtons. unfold idle in Hidle. rewrite Hidle.
  destruct (scan_release (isDown held) MaxButtons 0%nat (mkScan false st []))
    as (S1 & S2 & S3 & S5).
  { intros i Hi. cbn [statics]. rewrite Hb.
    destruct (Nat.ltb_spec i MaxButtons); [reflexivity | lia]. }
  cbn zeta in S1, S2, S3, S5. cbn [anyButtonPressed handled statics] in *.
  rewrite (downs_some held Hsome) in S3.
  rewrite S1. cbn [andb fst snd].
  split; [assumption|]. split; [|assumption].
  intros i. rewrite S5, Hb. cbn [Nat.leb Nat.add andb].
  destruct (i <? MaxButtons)%nat; reflexivity.
Qed.

Lemma hold_run (held : Z) (ts : list Tick) :
  downs MaxButtons held <> [] ->
  forall k stored st,
    (1 <= k)%nat -> holding MaxButtons held k stored st ->
    Forall (holds held) ts -> spaced stored ts ->
    pressesOfTicks MaxButtons ts st
    = map (expectedPresses MaxButtons held) (seq k (length ts))
    /\ exists stored',
         holding MaxButtons held (k + length ts) stored' (staticsAfter MaxButtons ts st).
Proof.
  intros Hsome. induction ts as [|t ts IH]; intros k stored st Hk Hst Hall Hsp; cbn.
  - split; [reflexivity|]. exists stored. rewrite Nat.add_0_r. assumption.
  - inversion Hall as [|t' ts' Ht Hrest]; subst. destruct Hsp as [Hclock Hsp].
    destruct (hold_tick held k stored t st Hk Hst Ht Hsome Hclock) as [Hp Hnext].
    destruct (IH (S k) (timeStored t) _ (le_S _ _ Hk) Hnext Hrest Hsp)
      as [Hps [stored' Hfin]].
    split; [rewrite Hp, Hps; reflexivity|].
    exists stored'. replace (k + S (length ts))%nat with (S k + length ts)%nat by lia.
    assumption.
Qed.

Lemma press_run (held : Z) (ts : list Tick) (st : InputStatics) :
  downs MaxButtons held <> [] ->
  released st ->
  Forall (holds held) ts -> spaced 0 ts ->
  pressesOfTicks MaxButtons ts st
  = map (expectedPresses MaxButtons held) (seq 0 (length ts))
  /\ (released (staticsAfter MaxButtons ts st)
      \/ exists k stored, holding MaxButtons held k stored (staticsAfter MaxButtons ts st)).
Proof.
  intros Hsome Hst Hall Hsp. destruct ts as [|t ts]; cbn.
  - split; [reflexivity | left; assumption].
  - inversion Hall as [|t' ts' Ht Hrest]; subst. destruct Hsp as [Hclock Hsp].
    destruct (press_tick held t st Hst Ht Hsome Hclock) as [Hp Hnext].
    destruct (hold_run held ts Hsome 1%nat (timeStored t) _ (le_n 1) Hnext Hrest Hsp)
      as [Hps [stored' Hfin]].
    split; [rewrite Hp, Hps; reflexivity|].
    right. exists (1 + length ts)%nat, stored'. assumption.
Qed.

Lemma quiet_run (held : Z) (ts : list Tick) :
  downs MaxButtons held = [] ->
  forall k st,
    released st -> Forall (holds held) ts ->
    pressesOfTicks MaxButtons ts st
    = map (expectedPresses MaxButtons held) (seq k (length ts))
    /\ released (staticsAfter MaxButtons ts st).
Proof.
  intros Hnone. induction ts as [|t ts IH]; intros k st Hst Hall; cbn.
  - split; [reflexivity | assumption].
  - inversion Hall as [|t' ts' Ht Hrest]; subst. unfold holds in Ht.
    destruct (quiet_tick t st Hst) as [Hp Hnext]; [rewrite Ht; assumption|].
    destruct (IH (S k) _ Hnext Hrest) as [Hps Hfin].
    split; [|assumption].
    rewrite Hp, Hps, (expectedPresses_none held k Hnone). reflexivity.
Qed.

Lemma downs_zero : downs MaxButtons 0 = [].
Proof.
  unfold downs. induction (seq 0 MaxButtons) as [|i l IH]; cbn [filter]; [reflexivity|].
  rewrite isDown_zero. assumption.
Qed.

(** The body of the loop, at a button whose status changes: both statics are
    zero when it is done. *)
Lemma scanButton_reset (held : Z) (sc : Scan (list Press)) (i : nat) :
  xorb (buttons (statics sc) i) (isDown held i) = true ->
  repeatingButtonTimer (statics (scanButton record held sc i)) = 0
  /\ buttonPressTime (statics (scanButton record held sc i)) = 0.
Proof.
  intros Hchanged. unfold scanButton. rewrite Hchanged.
  destruct (isDown held i); [|split; reflexivity].
  destruct (true || _); split; reflexivity.
Qed.


End ButtonRepeat.

(** * The statements at concrete inputs *)

(** ** The operations on small inputs *)

(** Push a dialog over the root: both stacks grow, the dialog has the focus
    and the inputs are blocked until the animations are done. *)
Example dialogPushed_stacks :
  map vid (viewStack dialogPushed) = [1; 4]%nat
  /\ map (option_map vid) (focusStack dialogPushed) = [Some 1%nat]
  /\ option_map vid (currentFocus dialogPushed) = Some 4%nat
  /\ blockInputsTokens dialogPushed = 1%Z
  /\ blockInputsTokens dialogShown = 0%Z.
Proof. repeat split. Qed.

(** Pop it: the focus is back on the root at once, the view leaves the stack
    when its hide animation is completed. *)
Example dialogPopped_stacks :
  map vid (viewStack dialogPopped) = [1; 4]%nat
  /\ focusStack dialogPopped = []
  /\ option_map vid (currentFocus dialogPopped) = Some 1%nat
  /\ map vid (viewStack dialogGone) = [1]%nat
  /\ blockInputsTokens dialogGone = 0%Z.
Proof. repeat split. Qed.

(** A frame over a stack with two overlays on top of a dialog: the dialog and
    the overlays are drawn, bottom first; the root under the dialog is not. *)
Example frame_over_overlays :
  trace (frame (mkApp [rootView; overlayView; dialogView; overlayView; overlayView]
                      [] None None 0 true noFields [] []))
  = [EvFrame 4; EvFrame 5; EvFrame 5; EvFramerateCounterFrame; EvNotificationsFrame].
Proof. reflexivity. Qed.

(** A consumed key stops the dispatch: the item's own action for the key
    returns true, so the same key registered on the root is not called. *)
Example handleAction_nearest_wins :
  let acts := [(3%nat, mkViewFields false false [mkAction 1%Z true QuitListener]);
               (1%nat, mkViewFields false false [mkAction 1%Z true ToggleFpsListener])] in
  let s := mkApp [rootView] [] (Some itemView) None 0 false acts [] [] in
  map call_view (calls (handleAction_run idleListener 1%Z s)) = [3%nat]
  /\ fst (handleAction idleListener 1%Z s) = true
  /\ framerateCounter (snd (handleAction idleListener 1%Z s)) = false.
Proof. repeat split. Qed.

Lemma idleCallback_keepsBalance : forall n, keepsBalance (idleCallback n).
Proof. intros n s. reflexivity. Defined.

Lemma idleCallback_keepsSlack : forall n, keepsSlack (idleCallback n).
Proof. intros n s. reflexivity. Defined.

Lemma rootBack_reached :
  reaches selfFocus idleCallback keyPlus keyMinus rootApp rootBack.
Proof.
  apply reaches_next with (s := dialogGone).
  2: { apply transition_complete with (a := mkAnimation ShowAnim rootView (UserCallback 0) FADE).
       reflexivity. }
  apply reaches_next with (s := dialogPopped).
  2: { apply transition_complete
         with (a := mkAnimation HideAnim dialogView (PopHideDone dialogView FADE true 0) FADE).
       reflexivity. }
  apply reaches_next with (s := dialogShown).
  2: { apply transition_pop. reflexivity. }
  apply reaches_next with (s := dialogHideDone).
  2: { apply transition_complete with (a := mkAnimation ShowAnim dialogView UnblockInputs FADE).
       reflexivity. }
  apply reaches_next with (s := dialogPushed).
  2: { apply transition_complete
         with (a := mkAnimation HideAnim rootView (PushHideDone FADE true) FADE).
       reflexivity. }
  apply reaches_next with (s := rootApp).
  2: { apply transition_push. }
  apply reaches_here.
Defined.


Lemma rootBack_completed :
  completedRun selfFocus idleCallback keyPlus keyMinus
    [Push dialogView FADE; Pop FADE 0] rootApp rootBack.
Proof.
  apply (performAll_completedRun selfFocus idleCallback keyPlus keyMinus 4).
  vm_compute. reflexivity.
Defined.


Lemma popView_root_is_noop_witness :
  (length (viewStack rootApp) <= 1)%nat /\ popView selfFocus FADE 0 rootApp = rootApp.
Proof.
  split; [apply le_n|].
  apply (popView_root_is_noop selfFocus FADE 0 rootApp). apply le_n.
Defined.

Lemma navigate_without_candidate_witness :
  navigate noNextFocus selfFocus UP itemApp = emit (EvShakeHighlight 3 UP) itemApp
  /\ currentFocus (navigate noNextFocus selfFocus UP itemApp) = Some itemView.
Proof.
  refine (navigate_without_candidate noNextFocus selfFocus UP itemApp _).
  intros cur Hcur. injection Hcur as <-. repeat constructor.
Defined.

Lemma onGamepadButtonPressed_blocked_witness :
  (0 < blockInputsTokens blockedApp)%Z
  /\ onGamepadButtonPressed noNextFocus selfFocus idleListener
       padDown padUp padLeft padRight padDown false blockedApp = blockedApp.
Proof.
  split; [reflexivity|].
  apply (onGamepadButtonPressed_blocked noNextFocus selfFocus idleListener
           padDown padUp padLeft padRight padDown false blockedApp).
  reflexivity.
Defined.

Lemma onGamepadButtonPressed_repeat_dropped_witness :
  samePointer (repetitionOldFocus itemApp) (currentFocus itemApp) = true
  /\ onGamepadButtonPressed noNextFocus selfFocus idleListener
       padDown padUp padLeft padRight padDown true itemApp = itemApp.
Proof.
  split; [reflexivity|].
  apply (onGamepadButtonPressed_repeat_dropped noNextFocus selfFocus idleListener
           padDown padUp padLeft padRight padDown itemApp).
  reflexivity.
Defined.

Lemma blockInputsTokens_never_negative_witness :
  (0 <= blockInputsTokens (applyBlockOps [Unblock; Block; Unblock; Unblock] initialApp))%Z
  /\ unblockInputs initialApp = initialApp.
Proof.
  refine (blockInputsTokens_never_negative [Unblock; Block; Unblock; Unblock] initialApp _).
  vm_compute. discriminate.
Defined.


